(** * Scheduler configuration of the dispatcher (dispatching/configuration.py)

    A shallow embedding of [normalize_data], [config_hash], [CachedDocument]
    and the [Scheduler] class, followed by the properties established about
    them.

    Conventions of the embedding:
    - Python dictionaries whose iteration order is observable by the code
      (the service registry, the category table, configuration mappings) are
      insertion-ordered association lists; dictionaries and sets whose order
      is never observed (the stage buckets, [set(...)] values) are [gmap]
      and [gset].
    - Strings are byte strings; names and file types are ASCII.
    - A call that may loop for ever takes a number of loop iterations it may
      use (its fuel) and reports when they are used up.
    - What the code reads from its environment is a parameter: the rows of
      the services collection (the same for every call of [services()]
      during one [build_schedule]), the Stage List, the regular expression
      matcher, the interpreter's [hash], the clock and the stored document
      of a [CachedDocument].  Patterns are taken to compile, and service
      objects to be truthy. *)

From Stdlib Require Import ZArith QArith Lqa Ascii String DecimalString DecimalZ.
From stdpp Require Import gmap strings list sorting.

Local Open Scope Z_scope.

(** ** Outcomes of a call *)

(** Exceptions the modelled code can raise. *)
Inductive exn : Type :=
| ValueError      (* list.index(x): x not in list *)
| AttributeError. (* getattr on an object without that attribute *)

(** A call returns, raises, or is still running when the step budget of the
    model is used up. *)
Inductive outcome (A : Type) : Type :=
| Returns (a : A)
| Raises (e : exn)
| OutOfFuel.
Arguments Returns {A} a.
Arguments Raises {A} e.
Arguments OutOfFuel {A}.

#[global] Instance outcome_ret : MRet outcome := fun A a => Returns a.

#[global] Instance outcome_bind : MBind outcome := fun A B k m =>
  match m with
  | Returns a => k a
  | Raises e => Raises e
  | OutOfFuel => OutOfFuel
  end.

(** ** Insertion-ordered dictionaries *)

Module Dict.
Definition t (V : Type) : Type := list (string * V).

(** [d.get(k, None)] *)
Fixpoint get {V} (k : string) (d : t V) : option V :=
  match d with
  | [] => None
  | (k', v) :: d' => if String.eqb k k' then Some v else get k d'
  end.

(** [d[k] = v]: an existing key keeps its position, a new key goes last. *)
Fixpoint set {V} (k : string) (v : V) (d : t V) : t V :=
  match d with
  | [] => [(k, v)]
  | (k', v') :: d' =>
      if String.eqb k k' then (k, v) :: d' else (k', v') :: set k v d'
  end.

Definition keys {V} (d : t V) : list string := map fst d.
Definition values {V} (d : t V) : list V := map snd d.
Definition mem {V} (k : string) (d : t V) : bool :=
  match get k d with Some _ => true | None => false end.
End Dict.

(** ** Configuration values and their identity *)

(** The Python values a service configuration is built from.  Mappings have
    string keys and keep their insertion order. *)
#[warnings="-register-all"]
Inductive pyvalue : Type :=
| PNone
| PBool (b : bool)
| PInt (n : Z)
| PStr (s : string)
| PList (elems : list pyvalue)
| PTuple (elems : list pyvalue)
| PDict (entries : list (string * pyvalue)).

(** [sorted(keys)] on strings: Python compares strings code point by code
    point, which is [String.le]; equal keys are identical, so the algorithm
    used is immaterial. *)
Definition sorted (l : list string) : list string := merge_sort String.le l.

(** [normalize_data]: a mapping becomes the tuple of its [(k, normalised
    data[k])] pairs for [k] in sorted key order, a list or tuple the tuple of
    its normalised elements, anything else is returned as it is. *)
Fixpoint normalize_data (data : pyvalue) : pyvalue :=
  match data with
  | PDict entries =>
      let fix item (d : list (string * pyvalue)) (k : string) : pyvalue :=
        match d with
        | [] => PNone
        | (k', v) :: d' =>
            if String.eqb k k' then normalize_data v else item d' k
        end in
      PTuple (map (fun k => PTuple [PStr k; item entries k])
                  (sorted (Dict.keys entries)))
  | PList elems => PTuple (map normalize_data elems)
  | PTuple elems => PTuple (map normalize_data elems)
  | _ => data
  end.

(** The part of the interpreter that [hash] depends on and that is fixed for
    the lifetime of one process: the string hash (keyed by the hash secret
    the interpreter draws at start-up), the function combining the hashes of
    the elements of a tuple, and the hash of [None]. *)
Record interpreter : Type := {
  str_hash : string -> Z;
  tuple_hash : list Z -> Z;
  none_hash : Z
}.

(** [hash] of an integer on a 64-bit build: reduction modulo the Mersenne
    prime 2^61 - 1 with the sign kept, and -1 (the error code of the C API)
    replaced by -2. *)
Definition hash_modulus : Z := 2 ^ 61 - 1.

Definition int_hash (n : Z) : Z :=
  let h := Z.sgn n * (Z.abs n mod hash_modulus) in
  if Z.eqb h (-1) then -2 else h.

(** The hashes of the elements of a tuple, when all are hashable. *)
Definition each_hash {A} (hash : A -> option Z) : list A -> option (list Z) :=
  fix go (l : list A) : option (list Z) :=
    match l with
    | [] => Some []
    | x :: l' =>
        match hash x, go l' with
        | Some h, Some hs => Some (h :: hs)
        | _, _ => None
        end
    end.

(** [hash(v)]; lists and dictionaries are unhashable ([None] here stands
    for TypeError). *)
Fixpoint py_hash (rt : interpreter) (v : pyvalue) : option Z :=
  match v with
  | PNone => Some (none_hash rt)
  | PBool b => Some (int_hash (if b then 1 else 0))
  | PInt n => Some (int_hash n)
  | PStr s => Some (str_hash rt s)
  | PTuple elems =>
      match each_hash (py_hash rt) elems with
      | Some hs => Some (tuple_hash rt hs)
      | None => None
      end
  | PList _ | PDict _ => None
  end.

(** [str(n)] for an integer: decimal digits, with a leading minus sign. *)
Definition py_str (n : Z) : string := NilZero.string_of_int (Z.to_int n).

(** [config_hash(config) = str(hash(normalize_data(config)))] *)
Definition config_hash (rt : interpreter) (config : pyvalue) : option string :=
  match py_hash rt (normalize_data config) with
  | Some h => Some (py_str h)
  | None => None
  end.

(** ** The service registry *)

Record Service : Type := {
  name : string;
  category : string;
  stage : string;
  accepts : string;
  rejects : string;
  failure_limit : Z
}.

Record Submission : Type := {
  selected_categories : option (list string);
  excluded_categories : option (list string)
}.

(** Truth value of a string and of an optional list. *)
Definition str_truthy (s : string) : bool := negb (String.eqb s "").
Definition list_truthy {A} (l : option (list A)) : bool :=
  match l with
  | Some (_ :: _) => true
  | _ => false
  end.

(** [l.pop()]: the last element and the list without it. *)
Definition pop {A} (l : list A) : option (A * list A) :=
  match rev l with
  | [] => None
  | x :: r => Some (x, rev r)
  end.

(** The elements [set.update(s)] adds for a string [s]: its characters, each
    as a string of length one. *)
Fixpoint chars (s : string) : list string :=
  match s with
  | EmptyString => []
  | String c s' => String c EmptyString :: chars s'
  end.

Module Scheduler.
Section Scheduler.
(** [re.match(pattern, text)] as a truth value. *)
Variable re_match : string -> string -> bool.
(** The rows the datastore returns for the search in [services()]. *)
Variable rows : list Service.
(** The Stage List, [self.stages()]. *)
Variable stages : list string.

Definition system_category : string := "system".

(** [{ser.name: ser for ser in rows}] *)
Definition services : Dict.t Service :=
  fold_left (fun d ser => Dict.set (name ser) ser d) rows [].

(** [categories()]: each category with the names of its services. *)
Definition categories : Dict.t (list string) :=
  fold_left
    (fun all service =>
       match Dict.get (category service) all with
       | Some members =>
           Dict.set (category service) (members ++ [name service]) all
       | None => Dict.set (category service) [name service] all
       end)
    (Dict.values services) [].

(** The [while services:] loop of [expand_categories]; [None] when the
    loop is still running after [fuel] iterations. *)
Fixpoint expand_loop (fuel : nat) (work found : list string)
    (seen_categories : gset string) : option (list string) :=
  match fuel with
  | O => None
  | S fuel' =>
      match pop work with
      | None => Some found
      | Some (nm, work') =>
          match Dict.get nm categories with
          | Some members =>
              if decide (nm ∉ seen_categories)
              then expand_loop fuel' (work' ++ members) found
                     (seen_categories ∪ list_to_set (chars nm))
              else expand_loop fuel' work' found seen_categories
          | None => expand_loop fuel' work' (found ++ [nm]) seen_categories
          end
      end
  end.

(** The list returned stands for [list(set(found_services))]: it has the
    elements of the set, each once, in the order of [elements]; the order in
    which the interpreter lists a set is not modelled. *)
Definition expand_categories (fuel : nat) (selectors : option (list string))
    : option (list string) :=
  match selectors with
  | None => Some []
  | Some l =>
      match expand_loop fuel l [] ∅ with
      | Some found => Some (elements (list_to_set found : gset string))
      | None => None
      end
  end.

(** [self.stages().index(stage)] *)
Fixpoint index_of (stage : string) (l : list string) : option nat :=
  match l with
  | [] => None
  | s :: l' => if String.eqb s stage then Some O else S <$> index_of stage l'
  end.

Definition stage_index (stage : string) : outcome nat :=
  match index_of stage stages with
  | Some i => Returns i
  | None => Raises ValueError
  end.

(** The local variables the [for name in services:] loop updates, and the
    warnings it logs. *)
Record sched_state : Type := {
  schedule : list (gmap string Service);
  selected : list string;
  skipped : list string;
  warnings : list string
}.

(** One iteration of the loop over the candidate names. *)
Definition schedule_service (all_services : Dict.t Service)
    (file_type : string) (st : sched_state) (nm : string)
    : outcome sched_state :=
  match Dict.get nm all_services with
  | None =>
      Returns {| schedule := schedule st;
                 selected := selected st;
                 skipped := skipped st ++ [nm];
                 warnings := warnings st ++
                   [String.append "Service configuration not found: " nm] |}
  | Some service =>
      if re_match (accepts service) file_type
         && (negb (str_truthy (rejects service))
             || negb (re_match (rejects service) file_type))
      then
        i ← stage_index (stage service);
        Returns {| schedule := alter (insert nm service) i (schedule st);
                   selected := selected st ++ [nm];
                   skipped := skipped st;
                   warnings := warnings st |}
      else
        Returns {| schedule := schedule st;
                   selected := selected st;
                   skipped := skipped st ++ [nm];
                   warnings := warnings st |}
  end.

Fixpoint schedule_loop (all_services : Dict.t Service) (file_type : string)
    (st : sched_state) (names : list string) : outcome sched_state :=
  match names with
  | [] => Returns st
  | nm :: names' =>
      st' ← schedule_service all_services file_type st nm;
      schedule_loop all_services file_type st' names'
  end.

Definition lift_fuel {A} (o : option A) : outcome A :=
  match o with
  | Some a => Returns a
  | None => OutOfFuel
  end.

(** The loop [for k, v in all_services.items()] that appends the names of
    the system services to [selected]. *)
Fixpoint add_system_services (items : Dict.t Service) (selected : list string)
    : list string :=
  match items with
  | [] => selected
  | (k, v) :: items' =>
      add_system_services items'
        (if String.eqb (category v) system_category
         then selected ++ [k]
         else selected)
  end.

(** The first part of [build_schedule], up to the candidate names
    [list(set(selected) - set(excluded))].  The order in which Python
    iterates over a set is not specified; [elements] fixes one. *)
Definition candidates (fuel : nat) (submission : Submission)
    : outcome (list string) :=
  let all_services := services in
  excluded ← lift_fuel
    (expand_categories fuel (excluded_categories submission));
  selected ←
    (if negb (list_truthy (selected_categories submission))
     then Returns (Dict.keys all_services)
     else lift_fuel
            (expand_categories fuel (selected_categories submission)));
  let selected := add_system_services all_services selected in
  Returns (elements ((list_to_set selected : gset string)
                     ∖ list_to_set excluded)).

(** [build_schedule] with the final values of its locals. *)
Definition build_schedule_run (fuel : nat) (submission : Submission)
    (file_type : string) : outcome sched_state :=
  names ← candidates fuel submission;
  schedule_loop services file_type
    {| schedule := map (fun _ => ∅) stages;
       selected := []; skipped := []; warnings := [] |}
    names.

Definition build_schedule (fuel : nat) (submission : Submission)
    (file_type : string) : outcome (list (gmap string Service)) :=
  st ← build_schedule_run fuel submission file_type;
  Returns (schedule st).
End Scheduler.
End Scheduler.

(** ** Result keys *)

(** The keyword arguments of [Result.build_key]. *)
Record build_key_args : Type := {
  service_name : string;
  version : string;
  file_hash : string;
  conf_key : string
}.

Section ResultKey.
(** [Result.build_key] of the datastore model library. *)
Context {K : Type}.
Variable build_key : build_key_args -> K.

Definition build_result_key (file_hash service_name config_hash : string) : K :=
  build_key {| service_name := service_name;
               version := "0";
               file_hash := file_hash;
               conf_key := config_hash |}.
End ResultKey.

(** ** A fragment of Python's regular expressions

    Patterns made of literal characters (characters that are not
    metacharacters of the pattern language), [.] and the postfix [*]; other
    patterns are outside the fragment.  It is used where a concrete pattern
    has to be run; the scheduler itself is stated for any matcher. *)

Module Re.
Inductive atom : Type :=
| Lit (c : ascii)
| AnyChar.

Definition atom_matches (a : atom) (c : ascii) : bool :=
  match a with
  | Lit c' => Ascii.eqb c' c
  | AnyChar => negb (Ascii.eqb c "010")
  end.

(** The pattern as a sequence of atoms, each with its star flag. *)
Fixpoint parse (pattern : string) : list (atom * bool) :=
  match pattern with
  | EmptyString => []
  | String c rest =>
      let a := if Ascii.eqb c "." then AnyChar else Lit c in
      match rest with
      | String "*" rest' => (a, true) :: parse rest'
      | _ => (a, false) :: parse rest
      end
  end.

(** Whether the pieces match at the start of [s], the rest of [s] being
    accepted by [final]. *)
Fixpoint match_here (final : string -> bool) (p : list (atom * bool))
    (s : string) : bool :=
  match p with
  | [] => final s
  | (a, false) :: p' =>
      match s with
      | String c s' => atom_matches a c && match_here final p' s'
      | EmptyString => false
      end
  | (a, true) :: p' =>
      (fix star (s : string) : bool :=
         match_here final p' s
         || match s with
            | String c s' => atom_matches a c && star s'
            | EmptyString => false
            end) s
  end.

(** [bool(re.match(pattern, s))]: the pattern matches at the start of [s]. *)
Definition re_match (pattern s : string) : bool :=
  match_here (fun _ => true) (parse pattern) s.

(** [bool(re.fullmatch(pattern, s))]: the pattern matches all of [s]. *)
Definition re_fullmatch (pattern s : string) : bool :=
  match_here (fun r => String.eqb r "") (parse pattern) s.
End Re.

(** ** CachedDocument *)

Module CachedDocument.
Local Open Scope Q_scope.

Definition REFRESH_SECONDS : Q := 5.

(** A stored document: its attributes by name. *)
Definition document : Type := gmap string pyvalue.

(** The instance attributes that change; [_collection] and [_key] are fixed
    at construction. *)
Record t : Type := {
  _cached : option document;
  _update_time : Q
}.

(** [__init__] *)
Definition init : t := {| _cached := None; _update_time := 0 |}.

(** What one attribute read meets: the two readings of [time.time()] (the
    second is taken only when the document is fetched) and what
    [_collection.get(_key)] returns at that moment. Clock readings are
    exact rationals. *)
Record access : Type := {
  clock : Q;
  clock_after_get : Q;
  stored : option document;
  attr : string
}.

(** [getattr(obj, key)] on a fetched value ([None] when nothing is stored). *)
Definition getattr (obj : option document) (key : string) : outcome pyvalue :=
  match obj with
  | Some d =>
      match d !! key with
      | Some v => Returns v
      | None => Raises AttributeError
      end
  | None => Raises AttributeError
  end.

Record reading : Type := {
  after : t;
  fetched : bool;
  result : outcome pyvalue
}.

Definition __getattr__ (self : t) (a : access) : reading :=
  if Qlt_le_dec REFRESH_SECONDS (clock a - _update_time self)
  then
    let self' := {| _cached := stored a; _update_time := clock_after_get a |} in
    {| after := self'; fetched := true;
       result := getattr (_cached self') (attr a) |}
  else
    {| after := self; fetched := false;
       result := getattr (_cached self) (attr a) |}.

(** A sequence of reads on one object. *)
Fixpoint reads (self : t) (l : list access) : t * list reading :=
  match l with
  | [] => (self, [])
  | a :: l' =>
      let r := __getattr__ self a in
      let '(final, rs) := reads (after r) l' in
      (final, r :: rs)
  end.
End CachedDocument.

(** ** Sample registries and submissions *)

(** [Service(dict(name=..., category=..., stage=..., accepts=...))]: the
    reject pattern and the failure limit keep their defaults. *)
Definition new_service (n c s a : string) : Service :=
  {| name := n; category := c; stage := s; accepts := a; rejects := "";
     failure_limit := 5 |}.

Definition two_stages : list string := ["pre"; "post"].

(** The registry of the scenario of the specification: X is a static
    service of stage pre, Y a system service of stage post. *)
Definition svc_X : Service := new_service "X" "static" "pre" ".*".
Definition svc_Y : Service := new_service "Y" "system" "post" ".*".
Definition scenario_rows : list Service := [svc_X; svc_Y].

(** Two services each named after the other's category: category alpha
    contains beta and category beta contains alpha. *)
Definition cyclic_rows : list Service :=
  [new_service "alpha" "beta" "pre" ".*";
   new_service "beta" "alpha" "pre" ".*"].

(** A service that bears the name of a category: "static" is both the
    category of X and the name of a service of category misc. *)
Definition shadow_rows : list Service :=
  [svc_X; new_service "static" "misc" "pre" ".*"].

(** A service whose accept pattern was left at its default. *)
Definition svc_default : Service := new_service "extract" "static" "pre" "".

(** A service whose stage is not in the Stage List. *)
Definition svc_lost : Service := new_service "lost" "static" "nowhere" ".*".

(** The mapping {a: 1, b: 2} and the same mapping built in the other
    order. *)
Definition config_ab : pyvalue := PDict [("a", PInt 1); ("b", PInt 2)].
Definition config_ba : pyvalue := PDict [("b", PInt 2); ("a", PInt 1)].

(** An interpreter to run examples with; its hash functions are stand-ins
    for those of a real one. *)
Definition sample_interpreter : interpreter :=
  {| str_hash := fun s => Z.of_nat (String.length s);
     tuple_hash := fun hs => fold_right (fun h acc => h + 31 * acc) 7 hs;
     none_hash := 0 |}.

Definition submit (sel excl : option (list string)) : Submission :=
  {| selected_categories := sel; excluded_categories := excl |}.

(** ** Predicates used in the statements *)

(** What [seen_categories] holds after any number of [update(name)] calls:
    strings of length one. *)
Definition single_chars (seen : gset string) : Prop :=
  forall x, x ∈ seen -> String.length x = 1%nat.

(** [reordered c1 c2]: the two configurations differ at most in the order
    in which the entries of their mappings, at any depth, were inserted. *)
Inductive reordered : pyvalue -> pyvalue -> Prop :=
| reordered_same (v : pyvalue) : reordered v v
| reordered_list (l1 l2 : list pyvalue) :
    length l1 = length l2 ->
    (forall i v1 v2, l1 !! i = Some v1 -> l2 !! i = Some v2 -> reordered v1 v2) ->
    reordered (PList l1) (PList l2)
| reordered_tuple (l1 l2 : list pyvalue) :
    length l1 = length l2 ->
    (forall i v1 v2, l1 !! i = Some v1 -> l2 !! i = Some v2 -> reordered v1 v2) ->
    reordered (PTuple l1) (PTuple l2)
| reordered_dict (d1 d2 : list (string * pyvalue)) :
    Dict.keys d1 ≡ₚ Dict.keys d2 ->
    (forall k v1 v2,
        Dict.get k d1 = Some v1 -> Dict.get k d2 = Some v2 -> reordered v1 v2) ->
    reordered (PDict d1) (PDict d2).

(** The test [build_schedule] applies to a registered candidate: the accept
    pattern matches, and the reject pattern is empty or does not match. *)
Definition passes (re_match : string -> string -> bool) (service : Service)
    (file_type : string) : bool :=
  re_match (accepts service) file_type
  && (negb (str_truthy (rejects service))
      || negb (re_match (rejects service) file_type)).

(** Name [nm] is registered as [service], passes the test for [file_type],
    and the stage of [service] is at index [i] of the Stage List. *)
Definition placed (re_match : string -> string -> bool) (rows : list Service)
    (stages : list string) (file_type nm : string) (service : Service)
    (i : nat) : Prop :=
  Dict.get nm (Scheduler.services rows) = Some service
  /\ passes re_match service file_type = true
  /\ Scheduler.index_of (stage service) stages = Some i.

(** The buckets hold exactly the names of [done_names] that are registered,
    pass the test and have a known stage, each in the bucket of its stage. *)
Definition buckets_hold (re_match : string -> string -> bool)
    (rows : list Service) (stages : list string) (file_type : string)
    (done_names : list string) (sched : list (gmap string Service)) : Prop :=
  length sched = length stages
  /\ forall i b, sched !! i = Some b ->
       forall nm service,
         b !! nm = Some service <->
         nm ∈ done_names /\ placed re_match rows stages file_type nm service i.

(** Every registered service names a stage of the Stage List. *)
Definition stages_known (rows : list Service) (stages : list string) : Prop :=
  Forall (fun service => stage service ∈ stages)
         (Dict.values (Scheduler.services rows)).

(** No member of a category is itself the name of a category: the registry
    has no service named like a category. *)
Definition members_are_services (rows : list Service) : Prop :=
  forall c members m,
    Dict.get c (Scheduler.categories rows) = Some members ->
    m ∈ members ->
    Dict.get m (Scheduler.categories rows) = None.

(** An upper bound on the iterations the expansion loop still needs for a
    work list: one per name, plus one per member of each category in it. *)
Fixpoint work_cost (cats : Dict.t (list string)) (work : list string) : nat :=
  match work with
  | [] => O
  | x :: work' =>
      S (match Dict.get x cats with
         | Some members => length members
         | None => O
         end + work_cost cats work')
  end.

(** Whether a candidate name is registered and its service passes the
    test of [build_schedule]. *)
Definition accepted_name (re_match : string -> string -> bool)
    (rows : list Service) (file_type nm : string) : bool :=
  match Dict.get nm (Scheduler.services rows) with
  | Some service => passes re_match service file_type
  | None => false
  end.

(** The strings a configuration contains: string values and mapping keys,
    at any depth. *)
Fixpoint strings_of (v : pyvalue) : list string :=
  match v with
  | PStr s => [s]
  | PList elems => concat (map strings_of elems)
  | PTuple elems => concat (map strings_of elems)
  | PDict entries =>
      concat (map (fun kv => let '(k, x) := kv in k :: strings_of x) entries)
  | _ => []
  end.

(** The clock readings of a sequence of reads never go back: each read
    starts no earlier than [t0] and than the end of the read before it, and
    the reading taken after a fetch is no earlier than the one before. *)
Fixpoint chronological (t0 : Q) (l : list CachedDocument.access) : Prop :=
  match l with
  | [] => True
  | a :: l' =>
      (t0 <= CachedDocument.clock a)%Q
      /\ (CachedDocument.clock a <= CachedDocument.clock_after_get a)%Q
      /\ chronological (CachedDocument.clock_after_get a) l'
  end.

(** A registry with a category whose name is one letter and is also the
    name of a service: s2 is the only service of category a, s1 the only
    service of category ab, and the service named a is of category misc. *)
Definition short_rows : list Service :=
  [new_service "s1" "ab" "pre" ".*"; new_service "s2" "a" "pre" ".*";
   new_service "a" "misc" "pre" ".*"].






(** * Properties *)

(** ** Dictionaries and lists *)

Lemma dict_get_set_eq {V} (k : string) (v : V) (d : Dict.t V) :
  Dict.get k (Dict.set k v d) = Some v.
Proof.
  induction d as [|[k' v'] d IH]; simpl.
  - by rewrite String.eqb_refl.
  - destruct (String.eqb k k') eqn:E; simpl; rewrite ?E, ?String.eqb_refl; done.
Qed.

Lemma dict_get_set_ne {V} (k k0 : string) (v : V) (d : Dict.t V) :
  k0 <> k -> Dict.get k0 (Dict.set k v d) = Dict.get k0 d.
Proof.
  intros Hne. induction d as [|[k' v'] d IH]; simpl.
  - by apply String.eqb_neq in Hne as ->.
  - destruct (String.eqb k k') eqn:E; simpl.
    + apply String.eqb_eq in E as <-. by apply String.eqb_neq in Hne as ->.
    + by rewrite IH.
Qed.

Lemma dict_get_keys {V} (k : string) (d : Dict.t V) :
  k ∈ Dict.keys d <-> is_Some (Dict.get k d).
Proof.
  induction d as [|[k' v'] d IH]; simpl.
  - split; [by intros ?%elem_of_nil | by intros [? ?]].
  - destruct (String.eqb_spec k k') as [->|Hne].
    + split; [eauto | intros _; left].
    + rewrite elem_of_cons, IH. split; [intros [?|?]; [done|done] | by right].
Qed.

Lemma pop_nil {A} (l : list A) : pop l = None -> l = [].
Proof.
  unfold pop. destruct (rev l) eqn:E; [|done].
  intros _. by rewrite <- (rev_involutive l), E.
Qed.

Lemma pop_snoc {A} (l r : list A) (x : A) :
  pop l = Some (x, r) -> l = r ++ [x].
Proof.
  unfold pop. destruct (rev l) as [|y t] eqn:E; [done|].
  intros [= -> <-]. by rewrite <- (rev_involutive l), E.
Qed.

Lemma pop_app_singleton {A} (r : list A) (x : A) : pop (r ++ [x]) = Some (x, r).
Proof. unfold pop. rewrite rev_app_distr. simpl. by rewrite rev_involutive. Qed.

(** ** Category expansion *)

Section Expansion.
Variable rows : list Service.

Lemma expand_loop_S (fuel : nat) (work found : list string) (seen : gset string) :
  Scheduler.expand_loop rows (S fuel) work found seen =
  match pop work with
  | None => Some found
  | Some (nm, work') =>
      match Dict.get nm (Scheduler.categories rows) with
      | Some members =>
          if decide (nm ∉ seen)
          then Scheduler.expand_loop rows fuel (work' ++ members) found
                 (seen ∪ list_to_set (chars nm))
          else Scheduler.expand_loop rows fuel work' found seen
      | None => Scheduler.expand_loop rows fuel work' (found ++ [nm]) seen
      end
  end.
Proof. reflexivity. Qed.

(** Every name the loop appends to [found_services] failed the test
    [name in categories]. *)
Lemma expand_loop_found (fuel : nat) :
  forall (work found : list string) (seen : gset string) (res : list string),
    Scheduler.expand_loop rows fuel work found seen = Some res ->
    Forall (fun x => Dict.get x (Scheduler.categories rows) = None) found ->
    Forall (fun x => Dict.get x (Scheduler.categories rows) = None) res.
Proof.
  induction fuel as [|fuel IH]; intros work found seen res; [done|].
  rewrite expand_loop_S.
  destruct (pop work) as [[nm work']|]; [|by intros [= ->]].
  destruct (Dict.get nm (Scheduler.categories rows)) as [members|] eqn:Hcat.
  - case_decide; eauto.
  - intros Hrun Hfound. eapply IH; [exact Hrun|].
    apply Forall_app. split; [done|]. by constructor.
Qed.

(** More fuel does not change a finished run. *)
Lemma expand_loop_mono (fuel : nat) :
  forall (work found : list string) (seen : gset string) (res : list string),
    Scheduler.expand_loop rows fuel work found seen = Some res ->
    Scheduler.expand_loop rows (S fuel) work found seen = Some res.
Proof.
  induction fuel as [|fuel IH]; intros work found seen res; [done|].
  rewrite (expand_loop_S (S fuel)), (expand_loop_S fuel).
  destruct (pop work) as [[nm work']|]; [|done].
  destruct (Dict.get nm (Scheduler.categories rows)); [case_decide|]; apply IH.
Qed.

Lemma expand_loop_more_fuel (fuel extra : nat) (work found : list string)
    (seen : gset string) (res : list string) :
  Scheduler.expand_loop rows fuel work found seen = Some res ->
  Scheduler.expand_loop rows (extra + fuel) work found seen = Some res.
Proof.
  intros Hrun. induction extra as [|extra IH]; [done|].
  by apply expand_loop_mono in IH.
Qed.

Lemma work_cost_app (cats : Dict.t (list string)) (l1 l2 : list string) :
  work_cost cats (l1 ++ l2) = (work_cost cats l1 + work_cost cats l2)%nat.
Proof. induction l1 as [|x l1 IH]; simpl; [done|]. rewrite IH. lia. Qed.

Lemma work_cost_services (cats : Dict.t (list string)) (l : list string) :
  Forall (fun m => Dict.get m cats = None) l ->
  work_cost cats l = length l.
Proof.
  induction 1 as [|x l Hx _ IH]; simpl; [done|]. rewrite Hx, IH. lia.
Qed.

(** Without a service named like a category, the loop returns once the
    fuel exceeds the cost of the work list. *)
Lemma expand_loop_returns (fuel : nat) :
  members_are_services rows ->
  forall (work found : list string) (seen : gset string),
    (work_cost (Scheduler.categories rows) work < fuel)%nat ->
    is_Some (Scheduler.expand_loop rows fuel work found seen).
Proof.
  intros Hmem. induction fuel as [|fuel IH]; intros work found seen Hcost;
    [lia|].
  rewrite expand_loop_S.
  destruct (pop work) as [[nm work']|] eqn:Hpop; [|eauto].
  apply pop_snoc in Hpop as ->.
  rewrite work_cost_app in Hcost. simpl in Hcost.
  destruct (Dict.get nm (Scheduler.categories rows)) as [members|] eqn:Hcat.
  - case_decide.
    + apply IH. rewrite work_cost_app, (work_cost_services _ members); [lia|].
      apply Forall_forall. intros m Hm. by eapply Hmem.
    + apply IH. lia.
  - apply IH. lia.
Qed.

Lemma expand_categories_returns (selectors : option (list string)) :
  members_are_services rows ->
  exists fuel0, forall fuel,
    (fuel0 <= fuel)%nat ->
    is_Some (Scheduler.expand_categories rows fuel selectors).
Proof.
  intros Hmem. unfold Scheduler.expand_categories.
  destruct selectors as [l|]; [|exists O; eauto].
  exists (S (work_cost (Scheduler.categories rows) l)). intros fuel Hfuel.
  destruct (expand_loop_returns _ Hmem l [] ∅ (Nat.lt_succ_diag_r _))
    as [found Hrun].
  apply (expand_loop_more_fuel _
           (fuel - S (work_cost (Scheduler.categories rows) l))) in Hrun.
  replace (fuel - S (work_cost (Scheduler.categories rows) l)
           + S (work_cost (Scheduler.categories rows) l))%nat
    with fuel in Hrun by lia.
  rewrite Hrun. eauto.
Qed.
End Expansion.

(** A name that is a key of the categories mapping is never part of the
    result of [expand_categories], whatever the selectors are and whether
    or not a registered service bears that name. *)
Theorem expand_categories_drops_category_names
    (rows : list Service) (fuel : nat) (selectors : option (list string))
    (res : list string) (nm : string) :
  Scheduler.expand_categories rows fuel selectors = Some res ->
  Dict.mem nm (Scheduler.categories rows) = true ->
  nm ∉ res.
Proof.
  unfold Scheduler.expand_categories, Dict.mem.
  destruct selectors as [l|]; [|intros [= <-] _; apply not_elem_of_nil].
  destruct (Scheduler.expand_loop rows fuel l [] ∅) as [found|] eqn:Hrun; [|done].
  intros [= <-] Hkey Hin.
  apply elem_of_elements, elem_of_list_to_set in Hin.
  apply expand_loop_found in Hrun; [|constructor].
  rewrite Forall_forall in Hrun. rewrite (Hrun _ Hin) in Hkey. done.
Qed.

Lemma expand_categories_drops_category_names_witness :
  "static" ∉ ["X"].
Proof.
  apply (expand_categories_drops_category_names shadow_rows 10
           (Some ["static"; "misc"]) ["X"] "static"); reflexivity.
Defined.

(** C9: the selector a is a key of the categories mapping, with s2 as its
    only member, and the name of a registered service, and it is not
    replaced by its members: once the category ab has been expanded,
    [seen_categories] holds the letters a and b, the test
    [name not in seen_categories] fails for a, and s2 is left out of the
    result, which holds the member of ab only. *)
Theorem single_letter_category_not_expanded :
  Dict.get "a" (Scheduler.categories short_rows) = Some ["s2"]
  /\ Dict.get "ab" (Scheduler.categories short_rows) = Some ["s1"]
  /\ Dict.mem "a" (Scheduler.services short_rows) = true
  /\ Scheduler.expand_categories short_rows 10 (Some ["a"; "ab"])
     = Some ["s1"].
Proof. repeat split; vm_compute; reflexivity. Qed.

(** *** Cyclic categories *)

Lemma single_chars_empty : single_chars ∅.
Proof. intros x Hx. by apply not_elem_of_empty in Hx. Qed.

Lemma chars_length (s x : string) : x ∈ chars s -> String.length x = 1%nat.
Proof.
  induction s as [|c s IH]; simpl.
  - by intros ?%elem_of_nil.
  - intros [->|?]%elem_of_cons; [done|auto].
Qed.

Lemma single_chars_update (seen : gset string) (s : string) :
  single_chars seen -> single_chars (seen ∪ list_to_set (chars s)).
Proof.
  intros Hseen x [?|Hx%elem_of_list_to_set]%elem_of_union; [auto|].
  by eapply chars_length.
Qed.

(** A category name of two characters or more is never found in
    [seen_categories]. *)
Lemma long_name_not_seen (seen : gset string) (s : string) :
  single_chars seen -> (1 < String.length s)%nat -> s ∉ seen.
Proof. intros Hseen Hlen Hin. apply Hseen in Hin. lia. Qed.

Lemma cyclic_loop_runs_on (fuel : nat) :
  forall (work found : list string) (seen : gset string),
    work = ["alpha"] \/ work = ["beta"] ->
    single_chars seen ->
    Scheduler.expand_loop cyclic_rows fuel work found seen = None.
Proof.
  induction fuel as [|fuel IH]; intros work found seen Hwork Hseen; [done|].
  rewrite expand_loop_S.
  destruct Hwork as [-> | ->].
  - change (pop ["alpha"]) with (Some ("alpha", @nil string)).
    cbv beta iota.
    replace (Dict.get "alpha" (Scheduler.categories cyclic_rows))
      with (Some ["beta"]) by reflexivity.
    destruct (decide ("alpha" ∉ seen)) as [_|Hn].
    + apply IH; [by right | by apply single_chars_update].
    + destruct Hn. apply long_name_not_seen; [done | simpl; lia].
  - change (pop ["beta"]) with (Some ("beta", @nil string)).
    cbv beta iota.
    replace (Dict.get "beta" (Scheduler.categories cyclic_rows))
      with (Some ["alpha"]) by reflexivity.
    destruct (decide ("beta" ∉ seen)) as [_|Hn].
    + apply IH; [by left | by apply single_chars_update].
    + destruct Hn. apply long_name_not_seen; [done | simpl; lia].
Qed.

(** C2: on a registry where category alpha contains beta and category beta
    contains alpha, the loop of [expand_categories] is still running after
    any number of iterations: the call never returns. *)
Theorem expand_categories_cycle_never_returns (fuel : nat) :
  Scheduler.expand_categories cyclic_rows fuel (Some ["alpha"]) = None.
Proof.
  unfold Scheduler.expand_categories.
  rewrite cyclic_loop_runs_on; [done | by left | apply single_chars_empty].
Qed.

(** ** Building the schedule *)

(** C1: with the system category (or the system service's name) in the
    submission's excluded categories, the system service Y of the scenario
    registry is in no bucket of the schedule, although its accept pattern
    matches the file type: the exclusions are subtracted after the system
    services have been added. *)
Theorem excluded_system_service_not_scheduled :
  Scheduler.build_schedule Re.re_match scenario_rows two_stages 10
    (submit None (Some ["system"])) "text"
  = Returns [{["X" := svc_X]}; ∅]
  /\ Scheduler.build_schedule Re.re_match scenario_rows two_stages 10
       (submit None (Some ["Y"])) "text"
     = Returns [{["X" := svc_X]}; ∅]
  /\ Scheduler.build_schedule Re.re_match scenario_rows two_stages 10
       (submit None None) "text"
     = Returns [{["X" := svc_X]}; {["Y" := svc_Y]}].
Proof. repeat split; vm_compute; reflexivity. Qed.

(** C6: a candidate that passes the accept test and whose stage is not in
    the Stage List makes [build_schedule] raise the ValueError of
    [list.index], and no schedule is returned; whereas a candidate without
    a service definition is logged and skipped, and the schedule is built. *)
Theorem unknown_stage_fails_schedule :
  Scheduler.build_schedule Re.re_match [svc_X; svc_lost] two_stages 10
    (submit None None) "text"
  = Raises ValueError
  /\ Scheduler.build_schedule_run Re.re_match [svc_X] two_stages 10
       (submit (Some ["ghost"; "X"]) None) "text"
     = Returns {| Scheduler.schedule := [{["X" := svc_X]}; ∅];
                  Scheduler.selected := ["X"];
                  Scheduler.skipped := ["ghost"];
                  Scheduler.warnings :=
                    ["Service configuration not found: ghost"] |}.
Proof. split; vm_compute; reflexivity. Qed.

(** ** Result keys *)

(** C8: the version passed to [Result.build_key] is the constant "0",
    whatever service the key is built for. *)
Theorem build_result_key_version_is_constant
    {K : Type} (build_key : build_key_args -> K) (fh sn ch : string) :
  exists args : build_key_args,
    build_result_key build_key fh sn ch = build_key args
    /\ version args = "0"
    /\ file_hash args = fh /\ service_name args = sn /\ conf_key args = ch.
Proof. eexists. split; [reflexivity|]. simpl. auto. Qed.

(** ** The buckets of the schedule *)

Lemma index_of_lookup (s : string) (l : list string) (i : nat) :
  Scheduler.index_of s l = Some i -> l !! i = Some s.
Proof.
  revert i. induction l as [|x l IH]; intros i; simpl; [done|].
  destruct (String.eqb_spec x s) as [->|Hne].
  - by intros [= <-].
  - destruct (Scheduler.index_of s l) as [j|]; [|done].
    intros [= <-]. simpl. by apply IH.
Qed.

Lemma index_of_elem (s : string) (l : list string) :
  s ∈ l -> is_Some (Scheduler.index_of s l).
Proof.
  induction l as [|x l IH]; simpl; [by intros ?%elem_of_nil|].
  destruct (String.eqb_spec x s) as [->|Hne]; [eauto|].
  intros [->|Hin]%elem_of_cons; [done|].
  destruct (IH Hin) as [j ->]. eauto.
Qed.

Lemma dict_get_values {V} (k : string) (v : V) (d : Dict.t V) :
  Dict.get k d = Some v -> v ∈ Dict.values d.
Proof.
  induction d as [|[k' v'] d IH]; simpl; [done|].
  destruct (String.eqb k k').
  - intros [= ->]. left.
  - intros Hget. right. by apply IH.
Qed.

Lemma stages_known_get (rows : list Service) (stages : list string)
    (nm : string) (service : Service) :
  stages_known rows stages ->
  Dict.get nm (Scheduler.services rows) = Some service ->
  stage service ∈ stages.
Proof.
  unfold stages_known. rewrite Forall_forall.
  intros Hwf Hget%dict_get_values. by apply Hwf.
Qed.

(** The registry maps each name to a service of that name. *)
Lemma services_get_name (rows : list Service) (nm : string) (service : Service) :
  Dict.get nm (Scheduler.services rows) = Some service -> name service = nm.
Proof.
  unfold Scheduler.services.
  assert (Hgen : forall (d : Dict.t Service),
             (forall k v, Dict.get k d = Some v -> name v = k) ->
             forall k v,
               Dict.get k (fold_left (fun d ser => Dict.set (name ser) ser d)
                             rows d) = Some v ->
               name v = k).
  { induction rows as [|ser rows' IH]; intros d Hd k v; simpl; [apply Hd|].
    apply IH. intros k' v'.
    destruct (decide (k' = name ser)) as [->|Hne].
    - rewrite dict_get_set_eq. by intros [= <-].
    - rewrite dict_get_set_ne by done. apply Hd. }
  apply Hgen. intros k v. simpl. done.
Qed.

Lemma scenario_members_are_services : members_are_services scenario_rows.
Proof.
  intros c members m. change (Scheduler.categories scenario_rows)
    with [("static", ["X"]); ("system", ["Y"])]. simpl.
  destruct (String.eqb c "static"); [intros [= <-] ->%list_elem_of_singleton; done|].
  destruct (String.eqb c "system"); [intros [= <-] ->%list_elem_of_singleton; done|].
  done.
Qed.

Lemma empty_buckets_lookup {A} (l : list A) (i : nat) (b : gmap string Service) :
  map (fun _ => ∅) l !! i = Some b -> b = ∅.
Proof.
  revert i. induction l as [|x l IH]; intros [|i]; simpl; try done.
  - by intros [= <-].
  - apply IH.
Qed.

Section Schedule.
Variable re_match : string -> string -> bool.
Variable rows : list Service.
Variable stages : list string.
Variable file_type : string.

Local Abbreviation step :=
  (Scheduler.schedule_service re_match stages (Scheduler.services rows)
     file_type).
Local Abbreviation loop :=
  (Scheduler.schedule_loop re_match stages (Scheduler.services rows)
     file_type).

Local Abbreviation buckets_exact :=
  (buckets_hold re_match rows stages file_type).

Lemma buckets_exact_init : buckets_exact [] (map (fun _ => ∅) stages).
Proof.
  split; [apply length_map|].
  intros i b ->%empty_buckets_lookup nm service. rewrite lookup_empty.
  split; [done | by intros [?%elem_of_nil _]].
Qed.

Lemma schedule_service_exact (done_names : list string)
    (st st' : Scheduler.sched_state) (nm : string) :
  buckets_exact done_names (Scheduler.schedule st) ->
  step st nm = Returns st' ->
  buckets_exact (done_names ++ [nm]) (Scheduler.schedule st').
Proof.
  intros [Hlen Hb]. unfold Scheduler.schedule_service.
  destruct (Dict.get nm (Scheduler.services rows)) as [service|] eqn:Hget.
  - fold (passes re_match service file_type).
    destruct (passes re_match service file_type) eqn:Hpass.
    + unfold Scheduler.stage_index.
      destruct (Scheduler.index_of (stage service) stages) as [i0|] eqn:Hidx;
        simpl; [|done].
      intros [= <-]. simpl. split; [by rewrite length_alter|].
      intros i b Hi nm' service'.
      rewrite elem_of_app, list_elem_of_singleton.
      destruct (decide (i0 = i)) as [->|Hne].
      * rewrite list_lookup_alter_eq in Hi.
        destruct (Scheduler.schedule st !! i) as [b0|] eqn:Hb0; [|done].
        injection Hi as <-. rewrite lookup_insert_Some, (Hb _ _ Hb0).
        unfold placed. split.
        -- intros [[<- <-]|[Hn [Hd Hp]]]; [split; [by right | done] |].
           split; [by left | done].
        -- intros [[Hd| ->] Hp].
           ++ destruct (decide (nm = nm')) as [->|Hn]; [|right; done].
              left. split; [done|]. destruct Hp as [Hp _]. congruence.
           ++ left. split; [done|]. destruct Hp as [Hp _]. congruence.
      * rewrite list_lookup_alter_ne in Hi by done.
        rewrite (Hb _ _ Hi). unfold placed. split.
        -- intros [Hd Hp]. split; [by left | done].
        -- intros [[Hd| ->] Hp]; [done|].
           destruct Hp as (Hp & _ & Hix). congruence.
    + intros [= <-]. simpl. split; [done|].
      intros i b Hi nm' service'. rewrite (Hb _ _ Hi).
      rewrite elem_of_app, list_elem_of_singleton. unfold placed. split.
      * intros [Hd Hp]. split; [by left | done].
      * intros [[Hd| ->] Hp]; [done|].
        destruct Hp as (Hp & Hps & _). congruence.
  - intros [= <-]. simpl. split; [done|].
    intros i b Hi nm' service'. rewrite (Hb _ _ Hi).
    rewrite elem_of_app, list_elem_of_singleton. unfold placed. split.
    + intros [Hd Hp]. split; [by left | done].
    + intros [[Hd| ->] Hp]; [done|].
      destruct Hp as (Hp & _). congruence.
Qed.

Lemma schedule_loop_exact (names : list string) :
  forall (done_names : list string) (st st' : Scheduler.sched_state),
    buckets_exact done_names (Scheduler.schedule st) ->
    loop st names = Returns st' ->
    buckets_exact (done_names ++ names) (Scheduler.schedule st').
Proof.
  induction names as [|nm names IH]; intros done_names st st' Hinv; simpl.
  - intros [= <-]. by rewrite app_nil_r.
  - destruct (step st nm) as [st1| |] eqn:Hstep; [|done..].
    intros Hrun. apply (schedule_service_exact _ _ _ _ Hinv) in Hstep.
    replace (done_names ++ nm :: names) with ((done_names ++ [nm]) ++ names)
      by (by rewrite <- app_assoc).
    by eapply IH.
Qed.

(** With every stage known, no iteration raises. *)
Lemma schedule_service_returns (st : Scheduler.sched_state) (nm : string) :
  stages_known rows stages -> exists st', step st nm = Returns st'.
Proof.
  intros Hwf. unfold Scheduler.schedule_service.
  destruct (Dict.get nm (Scheduler.services rows)) as [service|] eqn:Hget;
    [|eauto].
  destruct (_ && _); [|eauto].
  unfold Scheduler.stage_index.
  destruct (index_of_elem _ _ (stages_known_get _ _ _ _ Hwf Hget)) as [i ->].
  simpl. eauto.
Qed.

Lemma schedule_loop_returns (names : list string) :
  stages_known rows stages ->
  forall st, exists st', loop st names = Returns st'.
Proof.
  intros Hwf. induction names as [|nm names IH]; intros st; simpl; [eauto|].
  destruct (schedule_service_returns st nm Hwf) as [st1 ->]. simpl. apply IH.
Qed.

(** [candidates] never raises. *)
Lemma candidates_outcome (fuel : nat) (submission : Submission) :
  Scheduler.candidates rows fuel submission = OutOfFuel
  \/ exists names, Scheduler.candidates rows fuel submission = Returns names.
Proof.
  unfold Scheduler.candidates.
  destruct (Scheduler.expand_categories rows fuel (excluded_categories submission));
    simpl; [|by left].
  destruct (negb _); simpl; [eauto|].
  destruct (Scheduler.expand_categories rows fuel (selected_categories submission));
    simpl; eauto.
Qed.

(** The schedule [build_schedule] returns, in terms of its candidates. *)
Lemma build_schedule_exact (fuel : nat) (submission : Submission)
    (sched : list (gmap string Service)) :
  Scheduler.build_schedule re_match rows stages fuel submission file_type
    = Returns sched ->
  exists names,
    Scheduler.candidates rows fuel submission = Returns names
    /\ buckets_exact names sched.
Proof.
  unfold Scheduler.build_schedule, Scheduler.build_schedule_run.
  destruct (Scheduler.candidates rows fuel submission) as [names| |]; [|done..].
  simpl.
  destruct (loop _ names) as [st| |] eqn:Hrun; [|done..].
  simpl. intros [= <-]. exists names. split; [done|].
  apply (schedule_loop_exact names []) in Hrun; [done|].
  apply buckets_exact_init.
Qed.

Lemma build_schedule_returns (fuel : nat) (submission : Submission) :
  stages_known rows stages ->
  Scheduler.build_schedule re_match rows stages fuel submission file_type
    <> OutOfFuel ->
  exists sched,
    Scheduler.build_schedule re_match rows stages fuel submission file_type
    = Returns sched.
Proof.
  intros Hwf. unfold Scheduler.build_schedule, Scheduler.build_schedule_run.
  destruct (candidates_outcome fuel submission) as [-> | [names ->]]; [done|].
  simpl. intros _.
  destruct (schedule_loop_returns names Hwf
              {| Scheduler.schedule := map (fun _ => ∅) stages;
                 Scheduler.selected := []; Scheduler.skipped := [];
                 Scheduler.warnings := [] |}) as [st ->].
  simpl. eauto.
Qed.

(** The loop over the candidates is bounded by the list: it takes no fuel. *)
Lemma schedule_loop_bounded (names : list string) :
  forall st, loop st names <> OutOfFuel.
Proof.
  induction names as [|nm names IH]; intros st; simpl; [done|].
  unfold Scheduler.schedule_service.
  destruct (Dict.get nm (Scheduler.services rows)) as [service|];
    [|simpl; apply IH].
  destruct (_ && _); [|simpl; apply IH].
  unfold Scheduler.stage_index.
  destruct (Scheduler.index_of (stage service) stages); simpl; [apply IH|done].
Qed.

(** Without a service named like a category, [build_schedule] runs out of
    fuel for no submission once the fuel is large enough. *)
Lemma build_schedule_enough_fuel (submission : Submission) :
  members_are_services rows ->
  exists fuel0, forall fuel,
    (fuel0 <= fuel)%nat ->
    Scheduler.build_schedule re_match rows stages fuel submission file_type
      <> OutOfFuel.
Proof.
  intros Hmem.
  destruct (expand_categories_returns rows (excluded_categories submission) Hmem)
    as [f1 Hf1].
  destruct (expand_categories_returns rows (selected_categories submission) Hmem)
    as [f2 Hf2].
  exists (f1 + f2)%nat. intros fuel Hfuel.
  unfold Scheduler.build_schedule, Scheduler.build_schedule_run,
    Scheduler.candidates.
  destruct (Hf1 fuel) as [excluded ->]; [lia|].
  destruct (Hf2 fuel) as [sel ->]; [lia|]. simpl.
  destruct (negb _); simpl;
    match goal with
    | |- context [Scheduler.schedule_loop ?r ?sg ?a ?f ?st ?ns] =>
        pose proof (schedule_loop_bounded ns st) as Hb;
        destruct (Scheduler.schedule_loop r sg a f st ns)
    end; done.
Qed.
End Schedule.

Section ScheduleTheorems.
Variable re_match : string -> string -> bool.
Variable rows : list Service.
Variable stages : list string.
Variable file_type : string.

(** When the loop returns, the stage of every registered candidate that
    passed the test was found in the Stage List. *)
Lemma schedule_loop_stage_found (names : list string) :
  forall st st',
    Scheduler.schedule_loop re_match stages (Scheduler.services rows)
      file_type st names = Returns st' ->
    forall nm service,
      nm ∈ names ->
      Dict.get nm (Scheduler.services rows) = Some service ->
      passes re_match service file_type = true ->
      is_Some (Scheduler.index_of (stage service) stages).
Proof.
  induction names as [|n names IH]; intros st st' Hrun nm service Hin Hget Hpass.
  - by apply elem_of_nil in Hin.
  - simpl in Hrun.
    destruct (Scheduler.schedule_service re_match stages
                (Scheduler.services rows) file_type st n) as [st1| |] eqn:Hstep;
      [|done..].
    simpl in Hrun. apply elem_of_cons in Hin as [->|Hin]; [|by eapply IH].
    unfold Scheduler.schedule_service in Hstep. rewrite Hget in Hstep.
    fold (passes re_match service file_type) in Hstep. rewrite Hpass in Hstep.
    unfold Scheduler.stage_index in Hstep.
    destruct (Scheduler.index_of (stage service) stages); [eauto|done].
Qed.

Lemma build_schedule_stage_found (fuel : nat) (submission : Submission)
    (sched : list (gmap string Service)) (names : list string)
    (nm : string) (service : Service) :
  Scheduler.build_schedule re_match rows stages fuel submission file_type
    = Returns sched ->
  Scheduler.candidates rows fuel submission = Returns names ->
  nm ∈ names ->
  Dict.get nm (Scheduler.services rows) = Some service ->
  passes re_match service file_type = true ->
  exists i b, sched !! i = Some b /\ b !! nm = Some service.
Proof.
  intros Hrun Hcand Hin Hget Hpass.
  destruct (build_schedule_exact _ _ _ _ _ _ _ Hrun) as (names' & Hc & Hlen & Hb).
  rewrite Hcand in Hc. injection Hc as <-.
  unfold Scheduler.build_schedule, Scheduler.build_schedule_run in Hrun.
  rewrite Hcand in Hrun. simpl in Hrun.
  destruct (Scheduler.schedule_loop _ _ _ _ _ names) as [st| |] eqn:Hloop;
    [|done..].
  destruct (schedule_loop_stage_found _ _ _ Hloop _ _ Hin Hget Hpass) as [i Hi].
  assert (is_Some (sched !! i)) as [b Hbi].
  { apply lookup_lt_is_Some. rewrite Hlen.
    apply index_of_lookup in Hi. by eapply lookup_lt_Some. }
  exists i, b. split; [done|]. apply (Hb _ _ Hbi). by repeat split.
Qed.
End ScheduleTheorems.

(** On a registry whose services all name a stage of the Stage List,
    and when the category expansions finish within the fuel (which they do
    at least on every registry without a service named like a category, see
    [build_schedule_enough_fuel]), [build_schedule] returns one bucket per
    stage; a service found in a bucket is a candidate registered under that
    name, and the bucket is the one at the index of its stage in the Stage
    List, so no name is in two buckets; a bucket with no such service is
    empty; a service whose (non-empty) reject pattern matches the file type
    is in no bucket, whatever its accept pattern; and every candidate that
    is registered and passes the test is in a bucket. *)
Theorem build_schedule_one_bucket_per_stage
    (re_match : string -> string -> bool) (rows : list Service)
    (stages : list string) (fuel : nat) (submission : Submission)
    (file_type : string) :
  stages_known rows stages ->
  Scheduler.build_schedule re_match rows stages fuel submission file_type
    <> OutOfFuel ->
  exists sched names,
    Scheduler.build_schedule re_match rows stages fuel submission file_type
      = Returns sched
    /\ Scheduler.candidates rows fuel submission = Returns names
    /\ length sched = length stages
    /\ (forall i b nm service,
          sched !! i = Some b -> b !! nm = Some service ->
          nm ∈ names
          /\ Dict.get nm (Scheduler.services rows) = Some service
          /\ name service = nm
          /\ Scheduler.stage_index stages (stage service) = Returns i
          /\ stages !! i = Some (stage service))
    /\ (forall i j bi bj nm,
          sched !! i = Some bi -> sched !! j = Some bj ->
          is_Some (bi !! nm) -> is_Some (bj !! nm) -> i = j)
    /\ (forall i b,
          sched !! i = Some b ->
          (forall nm service,
             nm ∈ names -> ~ placed re_match rows stages file_type nm service i) ->
          b = ∅)
    /\ (forall i b nm service,
          sched !! i = Some b -> b !! nm = Some service ->
          rejects service <> "" ->
          re_match (rejects service) file_type = false)
    /\ (forall nm service,
          nm ∈ names ->
          Dict.get nm (Scheduler.services rows) = Some service ->
          passes re_match service file_type = true ->
          exists i b, sched !! i = Some b /\ b !! nm = Some service).
Proof.
  intros Hwf Hfuel.
  destruct (build_schedule_returns _ _ _ _ _ _ Hwf Hfuel) as [sched Hrun].
  destruct (build_schedule_exact _ _ _ _ _ _ _ Hrun) as (names & Hc & Hlen & Hb).
  exists sched, names.
  split; [done|]. split; [done|]. split; [done|]. split; [|split].
  - intros i b nm service Hi Hnm.
    apply (Hb _ _ Hi) in Hnm as (Hin & Hget & Hpass & Hidx).
    split; [done|]. split; [done|]. split; [by eapply services_get_name|].
    split.
    + unfold Scheduler.stage_index. by rewrite Hidx.
    + by apply index_of_lookup.
  - intros i j bi bj nm Hi Hj [si Hsi] [sj Hsj].
    apply (Hb _ _ Hi) in Hsi as (_ & Hgi & _ & Hii).
    apply (Hb _ _ Hj) in Hsj as (_ & Hgj & _ & Hij).
    congruence.
  - split; [|split].
    + intros i b Hi Hnone. apply map_eq. intros nm. rewrite lookup_empty.
      destruct (b !! nm) as [service|] eqn:Hnm; [|done].
      apply (Hb _ _ Hi) in Hnm as [Hin Hp]. by destruct (Hnone _ _ Hin Hp).
    + intros i b nm service Hi Hnm Hrej.
      apply (Hb _ _ Hi) in Hnm as (_ & _ & Hpass & _).
      unfold passes in Hpass. apply andb_prop in Hpass as [_ Hpass].
      apply orb_prop in Hpass as [Hpass|Hpass].
      * unfold str_truthy in Hpass. rewrite negb_involutive in Hpass.
        by apply String.eqb_eq in Hpass.
      * by apply negb_true_iff in Hpass.
    + intros nm service Hin Hget Hpass.
      by eapply build_schedule_stage_found.
Qed.

Lemma build_schedule_one_bucket_per_stage_witness :
  stages_known scenario_rows two_stages
  /\ Scheduler.build_schedule Re.re_match scenario_rows two_stages 10
       (submit None (Some ["static"])) "text" <> OutOfFuel
  /\ exists sched names,
       Scheduler.build_schedule Re.re_match scenario_rows two_stages 10
         (submit None (Some ["static"])) "text" = Returns sched
       /\ Scheduler.candidates scenario_rows 10 (submit None (Some ["static"]))
          = Returns names
       /\ length sched = length two_stages.
Proof.
  assert (Hwf : stages_known scenario_rows two_stages)
    by (repeat constructor).
  assert (Hfuel : Scheduler.build_schedule Re.re_match scenario_rows two_stages
                    10 (submit None (Some ["static"])) "text" <> OutOfFuel)
    by (vm_compute; discriminate).
  split; [exact Hwf|]. split; [exact Hfuel|].
  destruct (build_schedule_one_bucket_per_stage Re.re_match scenario_rows
              two_stages 10 (submit None (Some ["static"])) "text" Hwf Hfuel)
    as (sched & names & Hrun & Hcand & Hlen & _).
  exists sched, names. auto.
Defined.

(** C4: every service of the registry where category alpha contains beta
    and beta contains alpha names a stage of the Stage List, and yet
    [build_schedule] returns no schedule for a submission that excludes
    alpha: the expansion of the exclusions is still running after any
    number of iterations, so no bucket is ever produced. *)
Theorem build_schedule_never_returns_on_cycle :
  stages_known cyclic_rows two_stages
  /\ forall fuel,
       Scheduler.build_schedule Re.re_match cyclic_rows two_stages fuel
         (submit None (Some ["alpha"])) "text" = OutOfFuel.
Proof.
  split; [repeat constructor|]. intros fuel.
  unfold Scheduler.build_schedule, Scheduler.build_schedule_run,
    Scheduler.candidates, Scheduler.expand_categories.
  cbn [excluded_categories submit].
  rewrite cyclic_loop_runs_on; [done | by left | apply single_chars_empty].
Qed.

(** *** The accept test *)

(** In the fragment, the empty pattern matches at the start of every
    string, and matches all of the empty string only. *)
Lemma re_match_empty_pattern (s : string) : Re.re_match "" s = true.
Proof. reflexivity. Qed.

Lemma re_fullmatch_empty_pattern (s : string) :
  Re.re_fullmatch "" s = true <-> s = "".
Proof. unfold Re.re_fullmatch. simpl. apply String.eqb_eq. Qed.

(** C5, as the code has it: in a schedule [build_schedule] returns, a
    service is in a bucket only when [re.match(accepts, file_type)]
    succeeds; and a registered candidate whose accept and reject patterns
    are both empty is in the bucket at the index of its stage in the Stage
    List, as soon as the empty pattern matches the file type (which
    [re.match] always grants). *)
Theorem build_schedule_accept_test
    (re_match : string -> string -> bool) (rows : list Service)
    (stages : list string) (fuel : nat) (submission : Submission)
    (file_type : string) (sched : list (gmap string Service))
    (names : list string) :
  Scheduler.build_schedule re_match rows stages fuel submission file_type
    = Returns sched ->
  Scheduler.candidates rows fuel submission = Returns names ->
  (forall i b nm service,
     sched !! i = Some b -> b !! nm = Some service ->
     re_match (accepts service) file_type = true)
  /\ (forall nm service,
        nm ∈ names ->
        Dict.get nm (Scheduler.services rows) = Some service ->
        accepts service = "" -> rejects service = "" ->
        re_match "" file_type = true ->
        exists i b,
          Scheduler.stage_index stages (stage service) = Returns i
          /\ stages !! i = Some (stage service)
          /\ sched !! i = Some b
          /\ b !! nm = Some service).
Proof.
  intros Hrun Hcand. split.
  - destruct (build_schedule_exact _ _ _ _ _ _ _ Hrun) as (names' & Hc & Hlen & Hb).
    intros i b nm service Hi Hnm.
    apply (Hb _ _ Hi) in Hnm as (Hin & Hget & Hpass & Hidx).
    unfold passes in Hpass. by apply andb_prop in Hpass as [? _].
  - destruct (build_schedule_exact _ _ _ _ _ _ _ Hrun) as (names' & Hc & Hlen & Hb).
    intros nm service Hin Hget Hacc Hrej Hempty.
    assert (Hpass : passes re_match service file_type = true).
    { unfold passes. rewrite Hacc, Hrej, Hempty. reflexivity. }
    destruct (build_schedule_stage_found _ _ _ _ _ _ _ _ _ _ Hrun Hcand Hin
                Hget Hpass) as (i & b & Hi & Hnm).
    exists i, b.
    destruct (proj1 (Hb _ _ Hi nm service) Hnm) as (_ & _ & _ & Hidx).
    split; [unfold Scheduler.stage_index; by rewrite Hidx|].
    split; [by apply index_of_lookup|]. by split.
Qed.

Lemma build_schedule_accept_test_witness :
  exists (i : nat) (b : gmap string Service),
    Scheduler.stage_index two_stages (stage svc_default) = Returns i
    /\ two_stages !! i = Some (stage svc_default)
    /\ [{["extract" := svc_default]}; ∅] !! i = Some b
    /\ b !! "extract" = Some svc_default.
Proof.
  refine (proj2 (build_schedule_accept_test Re.re_match [svc_default] two_stages
                   10 (submit None None) "text"
                   [{["extract" := svc_default]}; ∅] ["extract"] _ _)
            "extract" svc_default _ _ _ _ _);
    try reflexivity.
  vm_compute. left.
Defined.

(** C5 as stated fails: the service "extract", whose accept pattern is the
    default empty string, is placed in the bucket of its stage for the
    non-empty file type "text", which the empty pattern does not full-match. *)
Lemma default_accept_pattern_is_scheduled :
  exists sched b,
    Scheduler.build_schedule Re.re_match [svc_default] two_stages 10
      (submit None None) "text" = Returns sched
    /\ sched !! 0%nat = Some b
    /\ b !! "extract" = Some svc_default
    /\ accepts svc_default = ""
    /\ Re.re_fullmatch (accepts svc_default) "text" = false
    /\ Re.re_match (accepts svc_default) "text" = true.
Proof.
  exists [{["extract" := svc_default]}; ∅], {["extract" := svc_default]}.
  repeat split; vm_compute; reflexivity.
Qed.

(** ** Configuration identity *)

Lemma py_str_inj (n m : Z) : py_str n = py_str m -> n = m.
Proof.
  unfold py_str. intros Heq. apply DecimalZ.to_int_inj.
  assert (Hnn : forall z, Z.to_int z <> Decimal.Pos Decimal.Nil
                          /\ Z.to_int z <> Decimal.Neg Decimal.Nil).
  { intros [|p|p]; simpl; split; try discriminate;
      intros [= H]; by apply DecimalPos.Unsigned.to_uint_nonnil in H. }
  assert (Hrt : forall z, NilZero.int_of_string (NilZero.string_of_int (Z.to_int z))
                          = Some (Z.to_int z)).
  { intros z. destruct (Hnn z). by apply NilZero.isi. }
  pose proof (Hrt n) as Hn. rewrite Heq, Hrt in Hn. congruence.
Qed.

(** [normalize_data] on a mapping, with the lookup [data[k]] spelled out. *)
Lemma normalize_data_dict (d : list (string * pyvalue)) :
  normalize_data (PDict d) =
  PTuple (map (fun k => PTuple [PStr k;
                                from_option normalize_data PNone (Dict.get k d)])
              (sorted (Dict.keys d))).
Proof.
  simpl. f_equal. apply map_ext. intros k. do 2 f_equal.
  induction d as [|[k' v] d IH]; simpl; [done|].
  by destruct (String.eqb k k').
Qed.

(** Two orders of the same keys sort to the same list. *)
Lemma sorted_permutation (l1 l2 : list string) :
  l1 ≡ₚ l2 -> sorted l1 = sorted l2.
Proof.
  intros Hperm. unfold sorted.
  apply (Sorted_unique String.le); try apply Sorted_merge_sort; try apply _.
  by rewrite !merge_sort_Permutation.
Qed.

Lemma sorted_elem (k : string) (l : list string) : k ∈ sorted l <-> k ∈ l.
Proof. unfold sorted. by rewrite merge_sort_Permutation. Qed.

Lemma reordered_normalize (c1 c2 : pyvalue) :
  reordered c1 c2 -> normalize_data c1 = normalize_data c2.
Proof.
  induction 1 as [v | l1 l2 Hlen _ IH | l1 l2 Hlen _ IH | d1 d2 Hkeys _ IH].
  - reflexivity.
  - simpl. f_equal. revert l2 Hlen IH.
    induction l1 as [|x l1 IHl]; intros [|y l2] Hlen IH; simpl; try done.
    f_equal.
    + by apply (IH 0%nat).
    + apply IHl; [by injection Hlen|]. intros i. apply (IH (S i)).
  - simpl. f_equal. revert l2 Hlen IH.
    induction l1 as [|x l1 IHl]; intros [|y l2] Hlen IH; simpl; try done.
    f_equal.
    + by apply (IH 0%nat).
    + apply IHl; [by injection Hlen|]. intros i. apply (IH (S i)).
  - rewrite !normalize_data_dict, (sorted_permutation _ _ Hkeys).
    f_equal. apply map_ext_in. intros k Hk. do 3 f_equal.
    apply list_elem_of_In in Hk. rewrite sorted_elem in Hk.
    assert (Hk1 : k ∈ Dict.keys d1) by (by rewrite Hkeys).
    apply dict_get_keys in Hk as [v2 Hv2]. apply dict_get_keys in Hk1 as [v1 Hv1].
    rewrite Hv1, Hv2. simpl. by eapply IH.
Qed.

Lemma pyvalue_ind_nested (P : pyvalue -> Prop) :
  P PNone ->
  (forall b, P (PBool b)) ->
  (forall n, P (PInt n)) ->
  (forall s, P (PStr s)) ->
  (forall l, Forall P l -> P (PList l)) ->
  (forall l, Forall P l -> P (PTuple l)) ->
  (forall d, Forall (fun kv => P (snd kv)) d -> P (PDict d)) ->
  forall v, P v.
Proof.
  intros HN HB HI HS HL HT HD. fix IH 1.
  intros [ |b|n|s|l|l|d]; [exact HN | apply HB | apply HI | apply HS | | | ].
  - apply HL. induction l as [|x l IHl]; constructor; [apply IH | exact IHl].
  - apply HT. induction l as [|x l IHl]; constructor; [apply IH | exact IHl].
  - apply HD. induction d as [|[k x] d IHd]; constructor; [apply IH | exact IHd].
Qed.

Lemma each_hash_is_Some {A} (hash : A -> option Z) (l : list A) :
  Forall (fun x => is_Some (hash x)) l -> is_Some (each_hash hash l).
Proof.
  induction 1 as [|x l [h Hh] _ [hs Hhs]]; simpl; [eauto|].
  rewrite Hh, Hhs. eauto.
Qed.

(** A normalised configuration is hashable: it contains no list and no
    mapping. *)
Lemma normalize_data_hashable (rt : interpreter) (c : pyvalue) :
  is_Some (py_hash rt (normalize_data c)).
Proof.
  induction c as [ |b|n|s|l IH|l IH|d IH] using pyvalue_ind_nested;
    try (simpl; eauto; fail).
  - simpl. destruct (each_hash_is_Some (py_hash rt) (map normalize_data l))
      as [hs ->]; [|eauto].
    apply Forall_map. exact IH.
  - simpl. destruct (each_hash_is_Some (py_hash rt) (map normalize_data l))
      as [hs ->]; [|eauto].
    apply Forall_map. exact IH.
  - rewrite normalize_data_dict. cbn [py_hash].
    match goal with
    | |- context [each_hash ?f ?l] =>
        destruct (each_hash_is_Some f l) as [hs ->]; [|eauto]
    end.
    apply Forall_map, Forall_forall. intros k _. simpl.
    assert (is_Some (py_hash rt (from_option normalize_data PNone (Dict.get k d))))
      as [h ->]; [|eauto].
    destruct (Dict.get k d) as [v|] eqn:Hget; simpl; [|eauto].
    rewrite Forall_forall in IH.
    assert (Hin : exists k', In (k', v) d).
    { clear IH. induction d as [|[k' v'] d IHd]; simpl in *; [done|].
      destruct (String.eqb k k').
      - injection Hget as ->. eauto.
      - destruct (IHd Hget) as [k'' ?]. eauto. }
    destruct Hin as [k' Hin]. apply list_elem_of_In in Hin. exact (IH _ Hin).
Qed.

Lemma config_hash_returns (rt : interpreter) (c : pyvalue) :
  is_Some (config_hash rt c).
Proof.
  unfold config_hash. destruct (normalize_data_hashable rt c) as [h ->]. eauto.
Qed.

(** C7, as the code has it: [config_hash] returns a string for every
    configuration; configurations with equal normalised forms get equal
    hashes; and two configurations that differ only in the insertion order
    of their mappings get equal hashes. *)
Theorem config_hash_of_normal_form (rt : interpreter) (c1 c2 : pyvalue) :
  is_Some (config_hash rt c1)
  /\ (normalize_data c1 = normalize_data c2 ->
      config_hash rt c1 = config_hash rt c2)
  /\ (reordered c1 c2 -> config_hash rt c1 = config_hash rt c2).
Proof.
  split; [apply config_hash_returns|].
  unfold config_hash. split.
  - by intros ->.
  - intros Hre. by rewrite (reordered_normalize _ _ Hre).
Qed.

Lemma config_hash_of_normal_form_witness :
  reordered config_ab config_ba
  /\ config_hash sample_interpreter config_ab
     = config_hash sample_interpreter config_ba.
Proof.
  assert (Hre : reordered config_ab config_ba).
  { apply reordered_dict; [apply perm_swap|].
    intros k v1 v2. simpl.
    destruct (String.eqb_spec k "a") as [->|Ha]; simpl.
    - intros [= <-] [= <-]. apply reordered_same.
    - destruct (String.eqb k "b"); [|done].
      intros [= <-] [= <-]. apply reordered_same. }
  split; [exact Hre|].
  exact (proj2 (proj2 (config_hash_of_normal_form sample_interpreter
                         config_ab config_ba)) Hre).
Defined.

(** [hash(-1)] and [hash(-2)] are both -2. *)
Lemma int_hash_minus_one : int_hash (-1) = -2 /\ int_hash (-2) = -2.
Proof. split; reflexivity. Qed.

(** C7 as stated fails from hash to normal form: the configurations
    {a: -1} and {a: -2} have different normalised forms and the same hash,
    in every process. *)
Lemma config_hash_collision :
  ~ (forall (rt : interpreter) (c1 c2 : pyvalue),
       config_hash rt c1 = config_hash rt c2 <->
       normalize_data c1 = normalize_data c2).
Proof.
  intros Hiff.
  destruct (Hiff sample_interpreter (PDict [("a", PInt (-1))])
              (PDict [("a", PInt (-2))])) as [Hto _].
  assert (Hsame : forall rt,
             config_hash rt (PDict [("a", PInt (-1))])
             = config_hash rt (PDict [("a", PInt (-2))])) by reflexivity.
  specialize (Hto (Hsame _)). vm_compute in Hto. discriminate Hto.
Qed.

(** C3: the hash of a string configuration is the decimal form of the
    interpreter's string hash, so two processes agree on it exactly when
    their string hashes agree on that string. *)
Theorem config_hash_follows_str_hash (rt1 rt2 : interpreter) (s : string) :
  config_hash rt1 (PStr s) = config_hash rt2 (PStr s)
  <-> str_hash rt1 s = str_hash rt2 s.
Proof.
  unfold config_hash. simpl. split.
  - intros [= Heq]. by apply py_str_inj.
  - by intros ->.
Qed.

(** ** CachedDocument *)

Section CachedReads.
Import CachedDocument.
Local Open Scope Q_scope.

(** A read fetches exactly when more than [REFRESH_SECONDS] have passed
    since [_update_time]. *)
Lemma getattr_fetches (self : t) (a : access) :
  fetched (__getattr__ self a) = true
  <-> REFRESH_SECONDS < clock a - _update_time self.
Proof.
  unfold __getattr__.
  destruct (Qlt_le_dec REFRESH_SECONDS (clock a - _update_time self))
    as [Hlt|Hle]; simpl.
  - by split.
  - split; [done|]. intros Hlt. by apply Qle_not_lt in Hle.
Qed.


End CachedReads.




(** * Further properties of the registry and the scheduler *)

(** ** The registry: [services()], [categories()], [stage_index] *)

Lemma dict_set_keys_NoDup {V} (k : string) (v : V) (d : Dict.t V) :
  NoDup (Dict.keys d) -> NoDup (Dict.keys (Dict.set k v d)).
Proof.
  intros Hnd. induction d as [|[k' v'] d IH]; simpl.
  - apply NoDup_singleton.
  - apply NoDup_cons in Hnd as [Hk' Hnd].
    destruct (String.eqb_spec k k') as [->|Hne]; simpl.
    + by apply NoDup_cons.
    + apply NoDup_cons. split; [|by apply IH].
      rewrite dict_get_keys in Hk' |- *. intros Hin. apply Hk'.
      by rewrite dict_get_set_ne in Hin.
Qed.

Lemma services_fold_get (rows : list Service) (nm : string) :
  forall d : Dict.t Service,
    Dict.get nm (fold_left (fun d ser => Dict.set (name ser) ser d) rows d)
    = match last (filter (fun ser => name ser = nm) rows) with
      | Some ser => Some ser
      | None => Dict.get nm d
      end.
Proof.
  induction rows as [|ser rows IH]; intros d; simpl; [done|].
  rewrite IH, filter_cons. case_decide as Hnm.
  - subst nm. rewrite dict_get_set_eq.
    destruct (filter (fun ser0 => name ser0 = name ser) rows) as [|s l];
      [done|].
    rewrite (last_cons ser). by destruct (last (s :: l)).
  - destruct (last _); [done|]. by apply dict_get_set_ne.
Qed.

Lemma services_keys_NoDup (rows : list Service) :
  NoDup (Dict.keys (Scheduler.services rows)).
Proof.
  unfold Scheduler.services.
  assert (Hgen : forall d : Dict.t Service,
             NoDup (Dict.keys d) ->
             NoDup (Dict.keys (fold_left
                      (fun d ser => Dict.set (name ser) ser d) rows d))).
  { induction rows as [|ser rows' IH]; intros d Hd; simpl; [done|].
    apply IH. by apply dict_set_keys_NoDup. }
  apply Hgen. constructor.
Qed.

(** X1: when the search returns several rows with the same name, the row
    registered under that name is the last of them; a name no row bears is
    not registered; and no name is registered twice. *)
Theorem services_last_row_wins (rows : list Service) (nm : string) :
  Dict.get nm (Scheduler.services rows)
  = last (filter (fun ser => name ser = nm) rows)
  /\ NoDup (Dict.keys (Scheduler.services rows)).
Proof.
  split; [|apply services_keys_NoDup].
  unfold Scheduler.services. rewrite services_fold_get. by destruct (last _).
Qed.

Lemma categories_fold_get (l : list Service) (c : string) :
  forall acc : Dict.t (list string),
    Dict.get c
      (fold_left
         (fun all service =>
            match Dict.get (category service) all with
            | Some members =>
                Dict.set (category service) (members ++ [name service]) all
            | None => Dict.set (category service) [name service] all
            end) l acc)
    = match Dict.get c acc,
            name <$> filter (fun service => category service = c) l with
      | Some members, more => Some (members ++ more)
      | None, [] => None
      | None, more => Some more
      end.
Proof.
  induction l as [|s l IH]; intros acc; simpl.
  - destruct (Dict.get c acc); [by rewrite app_nil_r | done].
  - rewrite IH, filter_cons. case_decide as Hc.
    + subst c. destruct (Dict.get (category s) acc) as [members|];
        rewrite dict_get_set_eq; simpl; [by rewrite <- app_assoc | done].
    + destruct (Dict.get (category s) acc) as [members|];
        by rewrite dict_get_set_ne.
Qed.

Lemma categories_get (rows : list Service) (c : string) :
  Dict.get c (Scheduler.categories rows)
  = match name <$> filter (fun service => category service = c)
                          (Dict.values (Scheduler.services rows)) with
    | [] => None
    | members => Some members
    end.
Proof. unfold Scheduler.categories. by rewrite categories_fold_get. Qed.

(** X2: the members [categories()] lists for a category are the names of
    the registered services of that category, in registry order; a name is
    a key of the table exactly when some registered service has it as its
    category. *)
Theorem categories_members (rows : list Service) (c : string) :
  Dict.get c (Scheduler.categories rows)
  = match name <$> filter (fun service => category service = c)
                          (Dict.values (Scheduler.services rows)) with
    | [] => None
    | members => Some members
    end.
Proof. unfold Scheduler.categories. by rewrite categories_fold_get. Qed.

Lemma index_of_first (s : string) (l : list string) (i : nat) :
  Scheduler.index_of s l = Some i <->
  l !! i = Some s /\ forall j, (j < i)%nat -> l !! j <> Some s.
Proof.
  revert i. induction l as [|x l IH]; intros i; simpl.
  - split; [done | by intros [? _]].
  - destruct (String.eqb_spec x s) as [->|Hne].
    + split.
      * intros [= <-]. split; [done | intros j Hj; lia].
      * intros [Hi Hfirst]. destruct i as [|i]; [done|].
        by destruct (Hfirst 0%nat ltac:(lia)).
    + destruct i as [|i].
      * split; [by destruct (Scheduler.index_of s l) | ].
        simpl. intros [[= ?] _]. done.
      * specialize (IH i). split.
        -- destruct (Scheduler.index_of s l) as [j|]; [|done].
           intros [= ->]. destruct (proj1 IH eq_refl) as [Hi Hfirst].
           split; [done|]. intros [|j] Hj; simpl; [congruence|].
           apply Hfirst. lia.
        -- intros [Hi Hfirst]. simpl in Hi.
           rewrite (proj2 IH); [done|]. split; [done|].
           intros j Hj. apply (Hfirst (S j)). lia.
Qed.

(** X3: [stage_index] returns the position of the first occurrence of the
    stage in the Stage List, and raises ValueError exactly when the stage is
    not in the list. *)
Theorem stage_index_first_occurrence (stages : list string) (stage : string) :
  (forall i,
     Scheduler.stage_index stages stage = Returns i <->
     stages !! i = Some stage
     /\ forall j, (j < i)%nat -> stages !! j <> Some stage)
  /\ (Scheduler.stage_index stages stage = Raises ValueError <->
      stage ∉ stages).
Proof.
  unfold Scheduler.stage_index. split.
  - intros i. rewrite <- index_of_first.
    destruct (Scheduler.index_of stage stages); split; congruence.
  - destruct (Scheduler.index_of stage stages) as [i|] eqn:Hi.
    + split; [done|]. intros Hnot. destruct Hnot.
      apply index_of_lookup in Hi. by eapply list_elem_of_lookup_2.
    + split; [|done]. intros _ Hin.
      destruct (index_of_elem _ _ Hin) as [j Hj]. congruence.
Qed.

(** ** What [expand_categories] returns *)

Lemma expand_loop_result (rows : list Service) :
  members_are_services rows ->
  forall (fuel : nat) (work found : list string) (seen : gset string)
         (res : list string),
    single_chars seen ->
    (forall c, c ∈ work ->
               is_Some (Dict.get c (Scheduler.categories rows)) ->
               String.length c <> 1%nat) ->
    Scheduler.expand_loop rows fuel work found seen = Some res ->
    forall x,
      x ∈ res <->
      x ∈ found
      \/ (x ∈ work /\ Dict.get x (Scheduler.categories rows) = None)
      \/ (exists c members,
            c ∈ work
            /\ Dict.get c (Scheduler.categories rows) = Some members
            /\ x ∈ members).
Proof.
  intros Hmem. induction fuel as [|fuel IH];
    intros work found seen res Hseen Hlong; [done|].
  rewrite expand_loop_S.
  destruct (pop work) as [[nm work']|] eqn:Hpop.
  - apply pop_snoc in Hpop as ->.
    destruct (Dict.get nm (Scheduler.categories rows)) as [members|] eqn:Hcat.
    + destruct (decide (nm ∉ seen)) as [_|Hin].
      * assert (Hlong' : forall c, c ∈ work' ++ members ->
                  is_Some (Dict.get c (Scheduler.categories rows)) ->
                  String.length c <> 1%nat).
        { intros c [Hc|Hc]%elem_of_app Hsome.
          - apply Hlong; [|done]. apply elem_of_app. by left.
          - rewrite (Hmem _ _ _ Hcat Hc) in Hsome. by destruct Hsome. }
        intros Hrun x.
        rewrite (IH _ _ _ _ (single_chars_update _ nm Hseen) Hlong' Hrun).
        setoid_rewrite elem_of_app. setoid_rewrite list_elem_of_singleton.
        split.
        -- intros [?|[[[?|Hx] Hn]|(c & ms & [?|Hc] & Hg & Hx)]]; eauto 8;
             first [ by rewrite (Hmem _ _ _ Hcat Hc) in Hg
                   | right; right; exists nm, members; by eauto ].
        -- intros [?|[[[?| ->] Hn]|(c & ms & [?| ->] & Hg & Hx)]]; eauto 8;
             first [ congruence
                   | rewrite Hcat in Hg; injection Hg as <-;
                     right; left; split; [by right|]; by eapply Hmem ].
      * destruct Hin. intros Hin. apply Hseen in Hin.
        apply (Hlong nm); [|eauto|done]. apply elem_of_app. right. left.
    + assert (Hlong' : forall c, c ∈ work' ->
                is_Some (Dict.get c (Scheduler.categories rows)) ->
                String.length c <> 1%nat).
      { intros c Hc. apply Hlong. apply elem_of_app. by left. }
      intros Hrun x. rewrite (IH _ _ _ _ Hseen Hlong' Hrun).
      setoid_rewrite elem_of_app. setoid_rewrite list_elem_of_singleton.
      split.
      * intros [[?| ->]|[[Hx Hn]|(c & ms & Hc & Hg & Hx)]]; eauto 8.
      * intros [?|[[[?| ->] Hn]|(c & ms & [?| ->] & Hg & Hx)]]; eauto 8;
          congruence.
  - apply pop_nil in Hpop as ->. intros [= <-] x. split; [by left|].
    intros [?|[[?%elem_of_nil _]|(c & ms & ?%elem_of_nil & _)]]; done.
Qed.

(** X4: on a registry without a service named like a category, and for
    selectors whose category names are not one character long,
    [expand_categories] returns, within a number of iterations bounded by the
    cost of the selectors, a duplicate-free list holding exactly the
    selectors that are not categories and the members of the selectors that
    are. *)
Theorem expand_categories_result
    (rows : list Service) (fuel : nat) (selectors : list string) :
  members_are_services rows ->
  (forall c, c ∈ selectors ->
             is_Some (Dict.get c (Scheduler.categories rows)) ->
             String.length c <> 1%nat) ->
  (work_cost (Scheduler.categories rows) selectors < fuel)%nat ->
  exists res,
    Scheduler.expand_categories rows fuel (Some selectors) = Some res
    /\ NoDup res
    /\ forall x,
         x ∈ res <->
         (x ∈ selectors /\ Dict.get x (Scheduler.categories rows) = None)
         \/ (exists c members,
               c ∈ selectors
               /\ Dict.get c (Scheduler.categories rows) = Some members
               /\ x ∈ members).
Proof.
  intros Hmem Hlong Hfuel. unfold Scheduler.expand_categories.
  destruct (expand_loop_returns rows fuel Hmem selectors [] ∅ Hfuel)
    as [found Hrun].
  rewrite Hrun. eexists. split; [done|]. split; [apply NoDup_elements|].
  intros x. rewrite elem_of_elements, elem_of_list_to_set.
  rewrite (expand_loop_result rows Hmem _ _ _ _ _ single_chars_empty Hlong Hrun).
  split; [intros [?%elem_of_nil|?]; done | by right].
Qed.

Lemma expand_categories_result_witness :
  exists res,
    Scheduler.expand_categories scenario_rows 10 (Some ["static"; "Y"])
    = Some res
    /\ NoDup res.
Proof.
  destruct (expand_categories_result scenario_rows 10 ["static"; "Y"])
    as (res & Hrun & Hnd & _).
  - exact scenario_members_are_services.
  - intros c Hc Hsome.
    apply elem_of_cons in Hc as [->|Hc]; [discriminate|].
    apply list_elem_of_singleton in Hc as ->.
    vm_compute in Hsome. destruct Hsome as [? Hsome]. discriminate Hsome.
  - vm_compute. lia.
  - exists res. by split.
Defined.

(** ** What [build_schedule] schedules, logs and raises *)

Lemma dict_get_elem {V} (k : string) (v : V) (d : Dict.t V) :
  NoDup (Dict.keys d) -> ((k, v) ∈ d <-> Dict.get k d = Some v).
Proof.
  induction d as [|[k' v'] d IH]; simpl; intros Hnd.
  - split; [by intros ?%elem_of_nil | done].
  - apply NoDup_cons in Hnd as [Hk' Hnd]. rewrite elem_of_cons, (IH Hnd).
    destruct (String.eqb_spec k k') as [->|Hne].
    + split; [intros [[= ->]|Hget]; [done|] | intros [= ->]; by left].
      destruct Hk'. apply dict_get_keys. eauto.
    + split; [intros [[= ? ?]|?]; done | by right].
Qed.

Lemma add_system_services_elem (items : Dict.t Service) :
  forall (sel : list string) (k : string),
    k ∈ Scheduler.add_system_services items sel <->
    k ∈ sel
    \/ exists v, (k, v) ∈ items /\ category v = Scheduler.system_category.
Proof.
  induction items as [|[k' v'] items IH]; intros sel k; simpl.
  - split; [by left | intros [?|(v & ?%elem_of_nil & _)]; done].
  - rewrite IH. setoid_rewrite elem_of_cons.
    destruct (String.eqb_spec (category v') Scheduler.system_category)
      as [Hsys|Hsys].
    + rewrite elem_of_app, list_elem_of_singleton. split.
      * intros [[?| ->]|(v & ? & ?)]; eauto 6.
      * intros [?|(v & [[= -> ->]|?] & ?)]; eauto 6.
    + split.
      * intros [?|(v & ? & ?)]; eauto 6.
      * intros [?|(v & [[= -> ->]|?] & ?)]; eauto 6. done.
Qed.

(** The candidates: the chosen names and the registered system services,
    without the excluded names. *)
Lemma candidates_elem (rows : list Service) (fuel : nat)
    (submission : Submission) (names ex : list string) :
  Scheduler.candidates rows fuel submission = Returns names ->
  Scheduler.expand_categories rows fuel (excluded_categories submission)
    = Some ex ->
  forall nm,
    nm ∈ names <->
    (nm ∉ ex)
    /\ ((exists v, Dict.get nm (Scheduler.services rows) = Some v
                   /\ category v = Scheduler.system_category)
        \/ (list_truthy (selected_categories submission) = false
            /\ is_Some (Dict.get nm (Scheduler.services rows)))
        \/ (list_truthy (selected_categories submission) = true
            /\ exists sel,
                 Scheduler.expand_categories rows fuel
                   (selected_categories submission) = Some sel
                 /\ nm ∈ sel)).
Proof.
  unfold Scheduler.candidates. intros Hcand Hex. rewrite Hex in Hcand.
  simpl in Hcand.
  pose proof (services_keys_NoDup rows) as Hnd.
  assert (Hsys : forall nm sel,
             nm ∈ Scheduler.add_system_services (Scheduler.services rows) sel
             <-> nm ∈ sel
                 \/ exists v, Dict.get nm (Scheduler.services rows) = Some v
                              /\ category v = Scheduler.system_category).
  { intros nm sel. rewrite add_system_services_elem.
    by setoid_rewrite (dict_get_elem _ _ _ Hnd). }
  destruct (list_truthy (selected_categories submission)) eqn:Htruthy;
    simpl in Hcand.
  - destruct (Scheduler.expand_categories rows fuel
                (selected_categories submission)) as [sel|]; [|done].
    simpl in Hcand. injection Hcand as <-. intros nm.
    rewrite elem_of_elements, elem_of_difference, !elem_of_list_to_set, Hsys.
    split.
    + intros [[?|?] ?]; split; eauto 6.
    + intros [? [?|[[? _]|(_ & sel' & [= <-] & ?)]]]; try done; eauto.
  - injection Hcand as <-. intros nm.
    rewrite elem_of_elements, elem_of_difference, !elem_of_list_to_set, Hsys.
    rewrite dict_get_keys. split.
    + intros [[?|?] ?]; split; eauto 6.
    + intros [? [?|[[_ ?]|[? _]]]]; try done; eauto.
Qed.

(** X5: the contents of the buckets.  When [build_schedule] returns, a name
    is in the bucket of index [i] with a service exactly when that service
    is registered under the name, passes the accept/reject test, has its
    stage first at index [i] of the Stage List, the name is not in the
    expansion of the excluded categories, and the service is a system
    service, or nothing was selected, or the name is in the expansion of
    the selected categories. *)
Theorem build_schedule_bucket_contents
    (re_match : string -> string -> bool) (rows : list Service)
    (stages : list string) (fuel : nat) (submission : Submission)
    (file_type : string) (sched : list (gmap string Service))
    (ex : list string) :
  Scheduler.build_schedule re_match rows stages fuel submission file_type
    = Returns sched ->
  Scheduler.expand_categories rows fuel (excluded_categories submission)
    = Some ex ->
  forall i b,
    sched !! i = Some b ->
    forall nm service,
      b !! nm = Some service <->
      Dict.get nm (Scheduler.services rows) = Some service
      /\ passes re_match service file_type = true
      /\ Scheduler.index_of (stage service) stages = Some i
      /\ (nm ∉ ex)
      /\ (category service = Scheduler.system_category
          \/ list_truthy (selected_categories submission) = false
          \/ exists sel,
               Scheduler.expand_categories rows fuel
                 (selected_categories submission) = Some sel
               /\ nm ∈ sel).
Proof.
  intros Hrun Hex.
  destruct (build_schedule_exact _ _ _ _ _ _ _ Hrun) as (names & Hc & Hlen & Hb).
  pose proof (candidates_elem _ _ _ _ _ Hc Hex) as Hnames.
  intros i b Hi nm service. rewrite (Hb _ _ Hi), Hnames. unfold placed.
  split.
  - intros [[Hnex Hwhy] (Hget & Hpass & Hidx)]. repeat split; try done.
    destruct Hwhy as [(v & Hv & Hsys)|[[Hf _]|(_ & sel & Hsel & Hin)]].
    + left. congruence.
    + right. by left.
    + right. right. eauto.
  - intros (Hget & Hpass & Hidx & Hnex & Hwhy). repeat split; try done.
    destruct Hwhy as [Hsys|[Hf|(sel & Hsel & Hin)]].
    + left. eauto.
    + right. left. eauto.
    + destruct (list_truthy (selected_categories submission)) eqn:Ht.
      * right. right. eauto.
      * right. left. eauto.
Qed.

Lemma build_schedule_bucket_contents_witness :
  ({["X" := svc_X]} : gmap string Service) !! "X" = Some svc_X <->
  Dict.get "X" (Scheduler.services scenario_rows) = Some svc_X
  /\ passes Re.re_match svc_X "text" = true
  /\ Scheduler.index_of (stage svc_X) two_stages = Some 0%nat
  /\ ("X" ∉ ["Y"])
  /\ (category svc_X = Scheduler.system_category
      \/ list_truthy (selected_categories (submit None (Some ["system"])))
         = false
      \/ exists sel,
           Scheduler.expand_categories scenario_rows 10
             (selected_categories (submit None (Some ["system"]))) = Some sel
           /\ "X" ∈ sel).
Proof.
  apply (build_schedule_bucket_contents Re.re_match scenario_rows two_stages
           10 (submit None (Some ["system"])) "text"
           [{["X" := svc_X]}; ∅] ["Y"]); reflexivity.
Defined.

Section ScheduleEffects.
Variable re_match : string -> string -> bool.
Variable rows : list Service.
Variable stages : list string.
Variable file_type : string.

Local Abbreviation step :=
  (Scheduler.schedule_service re_match stages (Scheduler.services rows)
     file_type).
Local Abbreviation loop :=
  (Scheduler.schedule_loop re_match stages (Scheduler.services rows)
     file_type).

(** An iteration raises exactly for a registered name that passes the test
    and whose stage is not in the Stage List, and then it is ValueError. *)
Lemma schedule_service_raises (st : Scheduler.sched_state) (nm : string)
    (e : exn) :
  step st nm = Raises e <->
  e = ValueError
  /\ exists service,
       Dict.get nm (Scheduler.services rows) = Some service
       /\ passes re_match service file_type = true
       /\ Scheduler.index_of (stage service) stages = None.
Proof.
  unfold Scheduler.schedule_service.
  destruct (Dict.get nm (Scheduler.services rows)) as [service|] eqn:Hget.
  - fold (passes re_match service file_type).
    destruct (passes re_match service file_type) eqn:Hpass.
    + unfold Scheduler.stage_index.
      destruct (Scheduler.index_of (stage service) stages) as [i|] eqn:Hidx;
        simpl.
      * split; [done|]. intros (_ & s & [= <-] & _ & ?). congruence.
      * split; [intros [= <-]; eauto 6 | by intros [-> _]].
    + split; [done|]. intros (_ & s & [= <-] & ? & _). congruence.
  - split; [done|]. by intros (_ & s & ? & _).
Qed.

Lemma schedule_loop_raises (names : list string) :
  forall (st : Scheduler.sched_state) (e : exn),
    loop st names = Raises e <->
    e = ValueError
    /\ exists nm service,
         nm ∈ names
         /\ Dict.get nm (Scheduler.services rows) = Some service
         /\ passes re_match service file_type = true
         /\ Scheduler.index_of (stage service) stages = None.
Proof.
  induction names as [|n names IH]; intros st e; simpl.
  - split; [done|]. by intros (_ & nm & s & ?%elem_of_nil & _).
  - destruct (step st n) as [st1|e1|] eqn:Hstep; simpl.
    + rewrite IH. split.
      * intros (-> & nm & s & Hin & Hrest). split; [done|].
        exists nm, s. split; [by right | done].
      * intros (-> & nm & s & Hin & Hget & Hpass & Hidx). split; [done|].
        apply elem_of_cons in Hin as [->|Hin]; [|eauto 8].
        assert (step st n = Raises ValueError) as Hr
          by (apply schedule_service_raises; eauto 6).
        congruence.
    + apply schedule_service_raises in Hstep as (-> & s & Hs). split.
      * intros [= <-]. split; [done|]. exists n, s. split; [by left | done].
      * by intros [-> _].
    + exfalso. revert Hstep. unfold Scheduler.schedule_service.
      destruct (Dict.get n (Scheduler.services rows)); [|done].
      destruct (_ && _); [|done]. unfold Scheduler.stage_index.
      by destruct (Scheduler.index_of _ stages).
Qed.

(** The warnings logged and the two lists kept by the loop. *)
Lemma schedule_loop_locals (names : list string) :
  forall st st' : Scheduler.sched_state,
    loop st names = Returns st' ->
    Scheduler.warnings st'
    = Scheduler.warnings st ++
      (String.append "Service configuration not found: "
         <$> filter (fun nm => Dict.mem nm (Scheduler.services rows) = false)
               names)
    /\ Scheduler.selected st'
       = Scheduler.selected st ++
         filter (fun nm => accepted_name re_match rows file_type nm = true)
           names
    /\ Scheduler.skipped st'
       = Scheduler.skipped st ++
         filter (fun nm => accepted_name re_match rows file_type nm = false)
           names.
Proof.
  induction names as [|n names IH]; intros st st'; simpl.
  - intros [= <-]. by rewrite !app_nil_r.
  - destruct (step st n) as [st1| |] eqn:Hstep; [|done..]. simpl.
    intros Hrun. destruct (IH _ _ Hrun) as (Hw & Hsel & Hsk).
    rewrite Hw, Hsel, Hsk, !filter_cons. clear IH Hrun Hw Hsel Hsk.
    revert Hstep. unfold Scheduler.schedule_service, accepted_name, Dict.mem.
    destruct (Dict.get n (Scheduler.services rows)) as [service|].
    + fold (passes re_match service file_type).
      destruct (passes re_match service file_type).
      * unfold Scheduler.stage_index.
        destruct (Scheduler.index_of (stage service) stages); [|done].
        simpl. intros [= <-]. simpl.
        repeat case_decide; try done. by rewrite <- app_assoc.
      * intros [= <-]. simpl.
        repeat case_decide; try done. by rewrite <- app_assoc.
    + intros [= <-]. simpl.
      repeat case_decide; try done. by rewrite <- !app_assoc.
Qed.
End ScheduleEffects.

Lemma index_of_None (s : string) (l : list string) :
  Scheduler.index_of s l = None <-> s ∉ l.
Proof.
  split.
  - intros Hnone Hin. destruct (index_of_elem _ _ Hin) as [i Hi]. congruence.
  - intros Hnot. destruct (Scheduler.index_of s l) as [i|] eqn:Hi; [|done].
    destruct Hnot. apply index_of_lookup in Hi.
    by eapply list_elem_of_lookup_2.
Qed.

(** X6: provided every accept and reject pattern handed to [re.match]
    compiles (the matcher is a total function here; a pattern that does not
    compile makes [re.match] raise re.error, which is outside this
    statement), [build_schedule] raises exactly when some candidate is
    registered, passes the accept/reject test and names a stage that is not
    in the Stage List; the exception is the ValueError of [list.index].  A
    candidate without definition or one that fails the test never makes it
    raise. *)
Theorem build_schedule_raises
    (re_match : string -> string -> bool) (rows : list Service)
    (stages : list string) (fuel : nat) (submission : Submission)
    (file_type : string) (names : list string) (e : exn) :
  Scheduler.candidates rows fuel submission = Returns names ->
  (Scheduler.build_schedule re_match rows stages fuel submission file_type
     = Raises e <->
   e = ValueError
   /\ exists nm service,
        nm ∈ names
        /\ Dict.get nm (Scheduler.services rows) = Some service
        /\ passes re_match service file_type = true
        /\ stage service ∉ stages).
Proof.
  intros Hcand.
  unfold Scheduler.build_schedule, Scheduler.build_schedule_run.
  rewrite Hcand. simpl.
  match goal with
  | |- context [Scheduler.schedule_loop ?r ?sg ?a ?f ?st ?ns] =>
      pose proof (schedule_loop_raises r rows sg f ns st e) as Hloop;
      setoid_rewrite index_of_None in Hloop;
      destruct (Scheduler.schedule_loop r sg a f st ns) as [st'|e'|]; simpl
  end.
  - split; [done|]. by intros Hex%Hloop.
  - split; [intros [= <-]; by apply Hloop | by intros [= ->]%Hloop].
  - split; [done|]. by intros Hex%Hloop.
Qed.

Lemma build_schedule_raises_witness :
  Scheduler.build_schedule Re.re_match [svc_X; svc_lost] two_stages 10
    (submit None None) "text" = Raises ValueError <->
  ValueError = ValueError
  /\ exists nm service,
       nm ∈ ["lost"; "X"]
       /\ Dict.get nm (Scheduler.services [svc_X; svc_lost]) = Some service
       /\ passes Re.re_match service "text" = true
       /\ stage service ∉ two_stages.
Proof.
  apply (build_schedule_raises Re.re_match [svc_X; svc_lost] two_stages 10
           (submit None None) "text" ["lost"; "X"] ValueError).
  reflexivity.
Defined.

(** X7: when [build_schedule] gets through its loop, it has logged one
    warning "Service configuration not found: <name>" for each candidate
    without a service definition, in candidate order, and no other; the
    names it recorded as selected are the registered candidates that pass
    the test, the names it recorded as skipped are all the others, so that
    each candidate is recorded once. *)
Theorem build_schedule_log_and_lists
    (re_match : string -> string -> bool) (rows : list Service)
    (stages : list string) (fuel : nat) (submission : Submission)
    (file_type : string) (names : list string)
    (st : Scheduler.sched_state) :
  Scheduler.candidates rows fuel submission = Returns names ->
  Scheduler.build_schedule_run re_match rows stages fuel submission file_type
    = Returns st ->
  Scheduler.warnings st
  = (String.append "Service configuration not found: "
       <$> filter (fun nm => Dict.mem nm (Scheduler.services rows) = false)
             names)
  /\ Scheduler.selected st
     = filter (fun nm => accepted_name re_match rows file_type nm = true) names
  /\ Scheduler.skipped st
     = filter (fun nm => accepted_name re_match rows file_type nm = false)
         names
  /\ Scheduler.selected st ++ Scheduler.skipped st ≡ₚ names.
Proof.
  intros Hcand. unfold Scheduler.build_schedule_run. rewrite Hcand. simpl.
  intros Hrun. apply schedule_loop_locals in Hrun as (Hw & Hsel & Hsk).
  simpl in *. rewrite Hw, Hsel, Hsk. repeat split; try done.
  clear. induction names as [|n names IH]; [done|].
  rewrite !filter_cons.
  destruct (accepted_name re_match rows file_type n).
  - rewrite decide_True by done. rewrite decide_False by done.
    simpl. by rewrite IH.
  - rewrite decide_False by done. rewrite decide_True by done.
    rewrite <- Permutation_middle. by rewrite IH.
Qed.

Lemma build_schedule_log_and_lists_witness :
  Scheduler.warnings
    {| Scheduler.schedule := [{["X" := svc_X]}; ∅];
       Scheduler.selected := ["X"];
       Scheduler.skipped := ["ghost"];
       Scheduler.warnings := ["Service configuration not found: ghost"] |}
  = (String.append "Service configuration not found: "
       <$> filter (fun nm => Dict.mem nm (Scheduler.services [svc_X]) = false)
             ["ghost"; "X"]).
Proof.
  refine (proj1 (build_schedule_log_and_lists Re.re_match [svc_X] two_stages
                   10 (submit (Some ["ghost"; "X"]) None) "text"
                   ["ghost"; "X"] _ _ _)); reflexivity.
Defined.

(** ** Selecting everything *)

(** On a work list without category names the loop only moves the names to
    [found_services]. *)
Lemma expand_loop_plain (rows : list Service) (fuel : nat) :
  forall (work found : list string) (seen : gset string),
    Forall (fun m => Dict.get m (Scheduler.categories rows) = None) work ->
    (length work < fuel)%nat ->
    Scheduler.expand_loop rows fuel work found seen = Some (found ++ rev work).
Proof.
  induction fuel as [|fuel IH]; intros work found seen Hplain Hfuel; [lia|].
  rewrite expand_loop_S.
  destruct (pop work) as [[nm work']|] eqn:Hpop.
  - apply pop_snoc in Hpop as ->.
    apply Forall_app in Hplain as [Hplain Hnm].
    apply Forall_cons in Hnm as [Hnm _]. rewrite Hnm.
    rewrite length_app in Hfuel. simpl in Hfuel.
    rewrite IH by (done || lia).
    by rewrite rev_app_distr, <- app_assoc.
  - apply pop_nil in Hpop as ->. simpl. by rewrite app_nil_r.
Qed.

Lemma dict_set_length {V} (k : string) (v : V) (d : Dict.t V) :
  (length (Dict.set k v d) <= S (length d))%nat.
Proof.
  induction d as [|[k' v'] d IH]; simpl; [lia|].
  destruct (String.eqb k k'); simpl; lia.
Qed.

Lemma services_length (rows : list Service) :
  (length (Scheduler.services rows) <= length rows)%nat.
Proof.
  unfold Scheduler.services.
  assert (Hgen : forall d : Dict.t Service,
             (length (fold_left (fun d ser => Dict.set (name ser) ser d) rows d)
              <= length rows + length d)%nat).
  { induction rows as [|ser rows' IH]; intros d; simpl; [lia|].
    pose proof (IH (Dict.set (name ser) ser d)).
    pose proof (dict_set_length (name ser) ser d). lia. }
  pose proof (Hgen []). simpl in *. lia.
Qed.

(** The registered names, when none of them is the name of a category, make
    up a registry without a service named like a category. *)
Lemma no_shadow_members (rows : list Service) :
  (forall nm, is_Some (Dict.get nm (Scheduler.services rows)) ->
              Dict.get nm (Scheduler.categories rows) = None) ->
  members_are_services rows.
Proof.
  intros Hno c members m Hc Hm. apply Hno.
  rewrite categories_get in Hc.
  assert (Hin : m ∈ name <$> filter (fun service => category service = c)
                             (Dict.values (Scheduler.services rows))).
  { destruct (name <$> filter _ _); [done|]. by injection Hc as ->. }
  apply list_elem_of_fmap in Hin as (service & -> & Hin).
  apply list_elem_of_filter in Hin as [_ Hin].
  unfold Dict.values in Hin.
  apply list_elem_of_fmap in Hin as ([k v] & -> & Hin). simpl.
  pose proof (services_keys_NoDup rows) as Hnd.
  apply (dict_get_elem _ _ _ Hnd) in Hin as Hget.
  rewrite (services_get_name _ _ _ Hget). eauto.
Qed.

(** X8: on a registry where no service is named like a category, selecting
    every registered service by name gives the same outcome as selecting
    nothing, whatever is excluded. *)
Theorem build_schedule_select_all
    (re_match : string -> string -> bool) (rows : list Service)
    (stages : list string) (fuel : nat) (excluded : option (list string))
    (file_type : string) :
  (forall nm, is_Some (Dict.get nm (Scheduler.services rows)) ->
              Dict.get nm (Scheduler.categories rows) = None) ->
  (length rows < fuel)%nat ->
  Scheduler.build_schedule re_match rows stages fuel
    (submit (Some (Dict.keys (Scheduler.services rows))) excluded) file_type
  = Scheduler.build_schedule re_match rows stages fuel
      (submit None excluded) file_type.
Proof.
  intros Hno Hfuel.
  assert (Hlen : (length (Dict.keys (Scheduler.services rows))
                  <= length rows)%nat).
  { unfold Dict.keys. rewrite length_map. apply services_length. }
  assert (Hkeys : forall nm, nm ∈ Dict.keys (Scheduler.services rows) ->
                    is_Some (Dict.get nm (Scheduler.services rows))).
  { intros nm. apply dict_get_keys. }
  remember (Dict.keys (Scheduler.services rows)) as keys eqn:Hk.
  assert (Hplain : Forall (fun m => Dict.get m (Scheduler.categories rows) = None)
                     keys).
  { apply Forall_forall. intros nm Hin. apply Hno. by apply Hkeys. }
  assert (Hres : Scheduler.expand_categories rows fuel (Some keys)
                 = Some (elements (list_to_set (rev keys) : gset string))).
  { unfold Scheduler.expand_categories.
    rewrite (expand_loop_plain rows fuel keys [] ∅ Hplain) by lia. done. }
  set (res := elements (list_to_set (rev keys) : gset string)) in *.
  assert (Hsame : forall x, x ∈ res <-> x ∈ keys).
  { intros x. unfold res.
    rewrite elem_of_elements, elem_of_list_to_set.
    by rewrite list_elem_of_In, <- in_rev, <- list_elem_of_In. }
  unfold Scheduler.build_schedule, Scheduler.build_schedule_run,
    Scheduler.candidates. simpl.
  destruct (Scheduler.expand_categories rows fuel excluded) as [ex|]; [|done].
  simpl. rewrite <- Hk. destruct keys as [|k keys']; [done|].
  simpl. unfold Scheduler.expand_categories in Hres.
  destruct (Scheduler.expand_loop rows fuel (k :: keys') [] ∅) as [found|];
    [|done].
  injection Hres as Hres. rewrite Hres. simpl.
  assert (Heq : (list_to_set
                   (Scheduler.add_system_services (Scheduler.services rows) res)
                 : gset string)
                = list_to_set
                    (Scheduler.add_system_services (Scheduler.services rows)
                       (k :: keys'))).
  { apply set_eq. intros x.
    rewrite !elem_of_list_to_set, !add_system_services_elem, Hsame. done. }
  by rewrite Heq.
Qed.

Lemma build_schedule_select_all_witness :
  Scheduler.build_schedule Re.re_match scenario_rows two_stages 10
    (submit (Some (Dict.keys (Scheduler.services scenario_rows))) None) "text"
  = Scheduler.build_schedule Re.re_match scenario_rows two_stages 10
      (submit None None) "text".
Proof.
  apply build_schedule_select_all.
  - intros nm [v Hv].
    change (Scheduler.services scenario_rows)
      with [("X", svc_X); ("Y", svc_Y)] in Hv.
    simpl in Hv.
    destruct (String.eqb_spec nm "X") as [->|_]; [reflexivity|].
    destruct (String.eqb_spec nm "Y") as [->|_]; [reflexivity|done].
  - simpl. lia.
Defined.

(** X9: whatever the registry, every name [expand_categories] returns is
    not the name of a category, and is one of the selectors or a member of a
    category, that is the name of a registered service. *)
Theorem expand_categories_provenance
    (rows : list Service) (fuel : nat) (selectors res : list string)
    (x : string) :
  Scheduler.expand_categories rows fuel (Some selectors) = Some res ->
  x ∈ res ->
  Dict.get x (Scheduler.categories rows) = None
  /\ (x ∈ selectors \/ is_Some (Dict.get x (Scheduler.services rows))).
Proof.
  unfold Scheduler.expand_categories.
  destruct (Scheduler.expand_loop rows fuel selectors [] ∅) as [found|] eqn:Hrun;
    [|done].
  intros [= <-] Hx. apply elem_of_elements, elem_of_list_to_set in Hx.
  pose proof (services_keys_NoDup rows) as Hnd.
  assert (Hmember : forall c members m,
             Dict.get c (Scheduler.categories rows) = Some members ->
             m ∈ members ->
             is_Some (Dict.get m (Scheduler.services rows))).
  { intros c members m Hc Hm. rewrite categories_get in Hc.
    assert (Hin : m ∈ name <$> filter (fun service => category service = c)
                               (Dict.values (Scheduler.services rows))).
    { destruct (name <$> filter _ _); [done|]. by injection Hc as ->. }
    apply list_elem_of_fmap in Hin as (service & -> & Hin).
    apply list_elem_of_filter in Hin as [_ Hin]. unfold Dict.values in Hin.
    apply list_elem_of_fmap in Hin as ([k v] & -> & Hin). simpl.
    apply (dict_get_elem _ _ _ Hnd) in Hin as Hget.
    rewrite (services_get_name _ _ _ Hget). eauto. }
  assert (Hgen : forall fuel work found seen res,
             Scheduler.expand_loop rows fuel work found seen = Some res ->
             forall y, y ∈ res ->
               y ∈ found \/ y ∈ work
               \/ is_Some (Dict.get y (Scheduler.services rows))).
  { clear fuel found Hrun Hx. induction fuel as [|fuel IH];
      intros work found seen res; [done|].
    rewrite expand_loop_S.
    destruct (pop work) as [[nm work']|] eqn:Hpop.
    - apply pop_snoc in Hpop as ->.
      destruct (Dict.get nm (Scheduler.categories rows)) as [members|] eqn:Hcat.
      + case_decide; intros Hrun y Hy.
        * destruct (IH _ _ _ _ Hrun y Hy) as [?|[[?|?]%elem_of_app|?]];
            first [ by left | by right; right
                  | by right; left; apply elem_of_app; left
                  | by right; right; eapply Hmember ].
        * destruct (IH _ _ _ _ Hrun y Hy) as [?|[?|?]];
            first [ by left | by right; right
                  | by right; left; apply elem_of_app; left ].
      + intros Hrun y Hy.
        destruct (IH _ _ _ _ Hrun y Hy) as [[?|?]%elem_of_app|[?|?]];
          first [ by left | by right; right
                | by right; left; apply elem_of_app; left
                | by right; left; apply elem_of_app; right ].
    - intros [= <-] y Hy. by left. }
  split.
  - apply expand_loop_found in Hrun; [|constructor].
    rewrite Forall_forall in Hrun. by apply Hrun.
  - destruct (Hgen _ _ _ _ _ Hrun x Hx) as [?%elem_of_nil|[?|?]]; eauto. done.
Qed.

Lemma expand_categories_provenance_witness :
  Dict.get "X" (Scheduler.categories shadow_rows) = None
  /\ ("X" ∈ ["static"; "misc"]
      \/ is_Some (Dict.get "X" (Scheduler.services shadow_rows))).
Proof.
  apply (expand_categories_provenance shadow_rows 10 ["static"; "misc"] ["X"]);
    [reflexivity | left].
Defined.

(** ** Normal forms and their hashes *)

Lemma dict_get_snd_elem {V} (k : string) (v : V) (d : Dict.t V) :
  Dict.get k d = Some v -> exists kv, kv ∈ d /\ snd kv = v.
Proof.
  induction d as [|[k' v'] d IH]; simpl; [done|].
  destruct (String.eqb k k').
  - intros [= ->]. exists (k', v). split; [left | done].
  - intros Hget. destruct (IH Hget) as (kv & Hin & Hv).
    exists kv. split; [by right | done].
Qed.

Lemma normalize_data_idempotent (c : pyvalue) :
  normalize_data (normalize_data c) = normalize_data c.
Proof.
  induction c as [ |b|n|s|l IH|l IH|d IH] using pyvalue_ind_nested;
    try reflexivity.
  - simpl. f_equal. rewrite map_map. apply map_ext_in. intros x Hx.
    rewrite Forall_forall in IH. by apply IH, list_elem_of_In.
  - simpl. f_equal. rewrite map_map. apply map_ext_in. intros x Hx.
    rewrite Forall_forall in IH. by apply IH, list_elem_of_In.
  - rewrite normalize_data_dict. simpl. f_equal. rewrite map_map.
    apply map_ext. intros k. simpl. do 3 f_equal.
    destruct (Dict.get k d) as [v|] eqn:Hget; simpl; [|done].
    apply dict_get_snd_elem in Hget as (kv & Hin & <-).
    rewrite Forall_forall in IH. by apply IH.
Qed.

(** X10: normalising is idempotent, so a configuration and its normal form
    have the same hash. *)
Theorem config_hash_of_normalized (rt : interpreter) (c : pyvalue) :
  normalize_data (normalize_data c) = normalize_data c
  /\ config_hash rt (normalize_data c) = config_hash rt c.
Proof.
  split; [apply normalize_data_idempotent|].
  unfold config_hash. by rewrite normalize_data_idempotent.
Qed.

(** X11: [config_hash] does not tell a list from the tuple of the same
    elements, nor a mapping from the list of its (key, value) pairs taken in
    key order. *)
Theorem config_hash_conflates (rt : interpreter)
    (elems : list pyvalue) (entries : list (string * pyvalue)) :
  config_hash rt (PList elems) = config_hash rt (PTuple elems)
  /\ config_hash rt (PDict entries)
     = config_hash rt
         (PList (map (fun k => PTuple [PStr k;
                                       default PNone (Dict.get k entries)])
                     (sorted (Dict.keys entries)))).
Proof.
  split; [reflexivity|]. unfold config_hash.
  rewrite normalize_data_dict.
  replace (normalize_data
             (PList (map (fun k => PTuple [PStr k;
                                           default PNone (Dict.get k entries)])
                         (sorted (Dict.keys entries)))))
    with (PTuple (map (fun k => PTuple [PStr k;
                                        from_option normalize_data PNone
                                          (Dict.get k entries)])
                      (sorted (Dict.keys entries)))); [done|].
  simpl. f_equal. rewrite map_map. apply map_ext. intros k. simpl.
  by destruct (Dict.get k entries).
Qed.

Lemma each_hash_ext {A} (h1 h2 : A -> option Z) (l : list A) :
  Forall (fun x => h1 x = h2 x) l -> each_hash h1 l = each_hash h2 l.
Proof.
  induction 1 as [|x l Hx _ IH]; simpl; [done|]. by rewrite Hx, IH.
Qed.

Lemma strings_of_elem (x : pyvalue) (l : list pyvalue) (s : string) :
  x ∈ l -> s ∈ strings_of x -> s ∈ concat (map strings_of l).
Proof.
  intros Hx Hs. apply list_elem_of_In, in_concat. exists (strings_of x).
  split; [apply in_map; by apply list_elem_of_In | by apply list_elem_of_In].
Qed.

Lemma strings_of_entry (k : string) (x : pyvalue)
    (d : list (string * pyvalue)) (s : string) :
  (k, x) ∈ d -> s = k \/ s ∈ strings_of x -> s ∈ strings_of (PDict d).
Proof.
  intros Hin Hs. simpl. apply list_elem_of_In, in_concat.
  exists (k :: strings_of x). split.
  - apply list_elem_of_In in Hin.
    by apply (in_map (fun kv => let '(k, x) := kv in k :: strings_of x)) in Hin.
  - apply list_elem_of_In, elem_of_cons. by destruct Hs; [left|right].
Qed.

Lemma py_hash_normalized_agree (rt1 rt2 : interpreter) (c : pyvalue) :
  (forall hs, tuple_hash rt1 hs = tuple_hash rt2 hs) ->
  none_hash rt1 = none_hash rt2 ->
  (forall s, s ∈ strings_of c -> str_hash rt1 s = str_hash rt2 s) ->
  py_hash rt1 (normalize_data c) = py_hash rt2 (normalize_data c).
Proof.
  intros Htuple Hnone.
  induction c as [ |b|n|s|l IH|l IH|d IH] using pyvalue_ind_nested;
    intros Hstr.
  - simpl. by rewrite Hnone.
  - reflexivity.
  - reflexivity.
  - simpl. rewrite Hstr; [done|]. simpl. left.
  - change (normalize_data (PList l)) with (PTuple (map normalize_data l)).
    cbn [py_hash].
    rewrite (each_hash_ext (py_hash rt1) (py_hash rt2)).
    + destruct (each_hash _ _); [by rewrite Htuple | done].
    + apply Forall_map, Forall_forall. intros x Hx.
      rewrite Forall_forall in IH. apply (IH x Hx).
      intros s Hs. apply Hstr. simpl. by eapply strings_of_elem.
  - change (normalize_data (PTuple l)) with (PTuple (map normalize_data l)).
    cbn [py_hash].
    rewrite (each_hash_ext (py_hash rt1) (py_hash rt2)).
    + destruct (each_hash _ _); [by rewrite Htuple | done].
    + apply Forall_map, Forall_forall. intros x Hx.
      rewrite Forall_forall in IH. apply (IH x Hx).
      intros s Hs. apply Hstr. simpl. by eapply strings_of_elem.
  - rewrite normalize_data_dict. cbn [py_hash].
    rewrite (each_hash_ext (py_hash rt1) (py_hash rt2)).
    + destruct (each_hash _ _); [by rewrite Htuple | done].
    + apply Forall_map, Forall_forall. intros k Hk.
      apply sorted_elem, dict_get_keys in Hk as [v Hget].
      rewrite Hget. simpl.
      assert (Hkv : (k, v) ∈ d).
      { clear -Hget. induction d as [|[k' v'] d IHd]; simpl in *; [done|].
        destruct (String.eqb_spec k k') as [->|Hne].
        - injection Hget as ->. left.
        - right. by apply IHd. }
      rewrite (Hstr k) by (eapply strings_of_entry; [exact Hkv | by left]).
      rewrite Forall_forall in IH. pose proof (IH _ Hkv) as IHv.
      simpl in IHv. rewrite IHv.
      * destruct (py_hash rt2 (normalize_data v)); [by rewrite Htuple | done].
      * intros s Hs. apply Hstr. eapply strings_of_entry; [exact Hkv | by right].
Qed.

(** X12: two processes whose interpreters combine tuple hashes and hash
    [None] alike return the same [config_hash] for a configuration as soon
    as their string hashes agree on the strings the configuration contains
    (its string values and mapping keys); in particular for every
    configuration without strings. *)
Theorem config_hash_depends_on_strings
    (rt1 rt2 : interpreter) (c : pyvalue) :
  (forall hs, tuple_hash rt1 hs = tuple_hash rt2 hs) ->
  none_hash rt1 = none_hash rt2 ->
  (forall s, s ∈ strings_of c -> str_hash rt1 s = str_hash rt2 s) ->
  config_hash rt1 c = config_hash rt2 c.
Proof.
  intros Htuple Hnone Hstr. unfold config_hash.
  by rewrite (py_hash_normalized_agree rt1 rt2 c Htuple Hnone Hstr).
Qed.

Lemma config_hash_depends_on_strings_witness :
  config_hash sample_interpreter (PList [PInt 1; PTuple [PNone; PBool true]])
  = config_hash
      {| str_hash := fun s => 1 + str_hash sample_interpreter s;
         tuple_hash := tuple_hash sample_interpreter;
         none_hash := none_hash sample_interpreter |}
      (PList [PInt 1; PTuple [PNone; PBool true]]).
Proof.
  apply config_hash_depends_on_strings; [done | done |].
  intros s Hs. vm_compute in Hs. by apply elem_of_nil in Hs.
Defined.

(** ** CachedDocument over time *)

Section CachedTiming.
Import CachedDocument.
Local Open Scope Q_scope.

(** X13: when the clock does not go back during a read, the document a
    read answers from was stored in the object at most REFRESH_SECONDS
    before the read started: a read never answers from an older document. *)
Theorem cached_document_freshness (self : t) (a : access) :
  clock a <= clock_after_get a ->
  clock a - _update_time (after (__getattr__ self a)) <= REFRESH_SECONDS.
Proof.
  intros Hclock. unfold __getattr__.
  destruct (Qlt_le_dec REFRESH_SECONDS (clock a - _update_time self))
    as [Hlt|Hle]; simpl; [|done].
  unfold REFRESH_SECONDS.
  apply Qle_trans with (y := 0); [|done].
  apply (Qplus_le_l _ _ (clock_after_get a)). ring_simplify. done.
Qed.

Lemma reads_app_fst (l1 l2 : list access) :
  forall self : t,
    fst (reads self (l1 ++ l2)) = fst (reads (fst (reads self l1)) l2).
Proof.
  induction l1 as [|a l1 IH]; intros self; simpl; [done|].
  specialize (IH (after (__getattr__ self a))).
  destruct (reads (after (__getattr__ self a)) (l1 ++ l2)).
  destruct (reads (after (__getattr__ self a)) l1). done.
Qed.

(** Along reads in chronological order, [_update_time] never goes back. *)
Lemma update_time_monotone (l : list access) :
  forall (self : t) (t0 : Q),
    chronological t0 l ->
    _update_time self <= t0 ->
    _update_time self <= _update_time (fst (reads self l)).
Proof.
  induction l as [|a l IH]; intros self t0 Hchron Hself.
  - apply Qle_refl.
  - destruct Hchron as (Ht0 & Hclock & Hrest).
    assert (Hstep : _update_time self <= _update_time (after (__getattr__ self a))
                    /\ _update_time (after (__getattr__ self a))
                       <= clock_after_get a).
    { assert (Hle : _update_time self <= clock_after_get a).
      { apply Qle_trans with (y := t0); [done|].
        by apply Qle_trans with (y := clock a). }
      unfold __getattr__.
      destruct (Qlt_le_dec REFRESH_SECONDS (clock a - _update_time self));
        cbn [after _update_time]; split;
        first [ apply Qle_refl | exact Hle ]. }
    destruct Hstep as [Hup Hbound].
    pose proof (IH (after (__getattr__ self a)) (clock_after_get a) Hrest Hbound)
      as Hrec.
    cbn [reads].
    destruct (reads (after (__getattr__ self a)) l) as [final rs].
    cbn [fst] in *. by apply Qle_trans with (y := _update_time (after (__getattr__ self a))).
Qed.
End CachedTiming.

Lemma chronological_suffix (l1 l2 : list CachedDocument.access) :
  forall t0, chronological t0 (l1 ++ l2) -> exists t1, chronological t1 l2.
Proof.
  induction l1 as [|a l1 IH]; intros t0; simpl; [eauto|].
  intros (_ & _ & Hrest). eauto.
Qed.

Lemma chronological_prefix (l1 l2 : list CachedDocument.access) :
  forall t0, chronological t0 (l1 ++ l2) -> chronological t0 l1.
Proof.
  induction l1 as [|a l1 IH]; intros t0; simpl; [done|].
  intros (? & ? & Hrest). eauto.
Qed.

(** X14: on reads in chronological order, two reads that both fetch the
    document are more than REFRESH_SECONDS apart: the collection is asked at
    most once in any window of that length. *)
Theorem cached_document_fetch_spacing
    (before between : list CachedDocument.access)
    (a b : CachedDocument.access) :
  chronological 0 (before ++ a :: between ++ [b]) ->
  CachedDocument.fetched
    (CachedDocument.__getattr__
       (fst (CachedDocument.reads CachedDocument.init before)) a) = true ->
  CachedDocument.fetched
    (CachedDocument.__getattr__
       (fst (CachedDocument.reads CachedDocument.init
               (before ++ a :: between))) b) = true ->
  (CachedDocument.REFRESH_SECONDS
   < CachedDocument.clock b - CachedDocument.clock_after_get a)%Q.
Proof.
  intros Hchron Hfa Hfb.
  apply chronological_suffix in Hchron as (t1 & _ & Hclock & Hrest).
  apply chronological_prefix in Hrest.
  rewrite reads_app_fst in Hfb.
  set (s0 := fst (CachedDocument.reads CachedDocument.init before)) in *.
  assert (Hupd : CachedDocument._update_time
                   (CachedDocument.after (CachedDocument.__getattr__ s0 a))
                 = CachedDocument.clock_after_get a).
  { revert Hfa. unfold CachedDocument.__getattr__.
    by destruct (Qlt_le_dec _ _). }
  cbn [CachedDocument.reads] in Hfb.
  destruct (CachedDocument.reads
              (CachedDocument.after (CachedDocument.__getattr__ s0 a)) between)
    as [sb rs] eqn:Hreads.
  cbn [fst] in Hfb.
  pose proof (update_time_monotone between
                (CachedDocument.after (CachedDocument.__getattr__ s0 a))
                (CachedDocument.clock_after_get a) Hrest) as Hmono.
  rewrite Hreads, Hupd in Hmono. cbn [fst] in Hmono.
  specialize (Hmono (Qle_refl _)).
  apply getattr_fetches in Hfb.
  unfold CachedDocument.REFRESH_SECONDS in *. lra.
Qed.

Lemma cached_document_fetch_spacing_witness :
  (CachedDocument.REFRESH_SECONDS < 1700000010 - 1700000001)%Q.
Proof.
  apply (cached_document_fetch_spacing []
           [ {| CachedDocument.clock := 1700000003;
                CachedDocument.clock_after_get := 1700000003;
                CachedDocument.stored := None;
                CachedDocument.attr := "stages" |} ]
           {| CachedDocument.clock := 1700000000;
              CachedDocument.clock_after_get := 1700000001;
              CachedDocument.stored := Some {["stages" := PList [PStr "pre"]]};
              CachedDocument.attr := "stages" |}
           {| CachedDocument.clock := 1700000010;
              CachedDocument.clock_after_get := 1700000011;
              CachedDocument.stored := Some {["stages" := PList [PStr "pre"]]};
              CachedDocument.attr := "stages" |}).
  - simpl. repeat split; by vm_compute.
  - reflexivity.
  - reflexivity.
Defined.

Lemma cached_document_freshness_witness :
  (1700000010 - 1700000011 <= CachedDocument.REFRESH_SECONDS)%Q.
Proof.
  apply (cached_document_freshness CachedDocument.init
           {| CachedDocument.clock := 1700000010;
              CachedDocument.clock_after_get := 1700000011;
              CachedDocument.stored := None;
              CachedDocument.attr := "stages" |}).
  by vm_compute.
Defined.

(** ** Expanding twice, and in another order *)



(** X16: on a registry without a service named like a category, and for
    selectors whose category names are not one character long, the names
    [expand_categories] returns depend neither on the order of the selectors
    nor on how often each is listed: two such calls return lists with the
    same elements, each once.  (The order of the returned lists is not part
    of the statement.) *)
Theorem expand_categories_order_irrelevant
    (rows : list Service) (fuel : nat) (l1 l2 : list string) :
  members_are_services rows ->
  (forall c, c ∈ l1 ->
             is_Some (Dict.get c (Scheduler.categories rows)) ->
             String.length c <> 1%nat) ->
  (forall x, x ∈ l1 <-> x ∈ l2) ->
  (work_cost (Scheduler.categories rows) l1 < fuel)%nat ->
  (work_cost (Scheduler.categories rows) l2 < fuel)%nat ->
  exists r1 r2,
    Scheduler.expand_categories rows fuel (Some l1) = Some r1
    /\ Scheduler.expand_categories rows fuel (Some l2) = Some r2
    /\ r1 ≡ₚ r2.
Proof.
  intros Hmem Hlong Hsame Hf1 Hf2. unfold Scheduler.expand_categories.
  assert (Hlong2 : forall c, c ∈ l2 ->
             is_Some (Dict.get c (Scheduler.categories rows)) ->
             String.length c <> 1%nat).
  { intros c Hc. apply Hlong. by apply Hsame. }
  destruct (expand_loop_returns rows fuel Hmem l1 [] ∅ Hf1) as [f1 Hr1].
  destruct (expand_loop_returns rows fuel Hmem l2 [] ∅ Hf2) as [f2 Hr2].
  rewrite Hr1, Hr2. eexists _, _. split; [reflexivity|].
  split; [reflexivity|].
  apply NoDup_Permutation; [apply NoDup_elements..|]. intros x.
  rewrite !elem_of_elements, !elem_of_list_to_set.
  rewrite (expand_loop_result rows Hmem _ _ _ _ _ single_chars_empty Hlong Hr1).
  rewrite (expand_loop_result rows Hmem _ _ _ _ _ single_chars_empty Hlong2 Hr2).
  by setoid_rewrite Hsame.
Qed.

Lemma expand_categories_order_irrelevant_witness :
  exists r1 r2,
    Scheduler.expand_categories scenario_rows 10 (Some ["static"; "Y"])
    = Some r1
    /\ Scheduler.expand_categories scenario_rows 10
         (Some ["Y"; "static"; "Y"]) = Some r2
    /\ r1 ≡ₚ r2.
Proof.
  apply expand_categories_order_irrelevant.
  - exact scenario_members_are_services.
  - intros c Hc Hsome.
    apply elem_of_cons in Hc as [->|Hc]; [discriminate|].
    apply list_elem_of_singleton in Hc as ->.
    vm_compute in Hsome. destruct Hsome as [? Hsome]. discriminate Hsome.
  - intros x. rewrite !elem_of_cons, !elem_of_nil. tauto.
  - vm_compute. lia.
  - vm_compute. lia.
Defined.
